(** * Cugrad: a scalar reverse-mode automatic-differentiation engine

    A shallow embedding of [src/main.cpp].  The C++ program builds a graph of
    [Value] objects held through [std::shared_ptr]; here the objects live in
    an arena ([Heap], a list of [Value] records) and a shared pointer is the
    index of its object, so that pointer comparison is index comparison and
    two objects holding the same number stay distinct.  [double] is the
    kernel's binary64 [float].  The closures stored in [_backward] are a
    tagged variant [rule] recording what each lambda captures. *)

From Stdlib Require Import Floats String.
From stdpp Require Import base option list relations.

Open Scope string_scope.
Open Scope float_scope.
Open Scope list_scope.
Open Scope nat_scope.

(** ** The C math library

    [std::pow], [std::exp], [std::tanh] and [std::to_string] are not part of
    the repository: the development is parametric in them. *)

Class Libm := {
  c_pow : float → float → float;
  c_exp : float → float;
  c_tanh : float → float;
  to_string : float → string
}.

(** * The program *)

(** ** Data model *)

(** A [std::shared_ptr<Value>]: the index of the object in the arena. *)
Abbreviation ptr := nat (only parsing).

(** The lambdas assigned to [_backward], with their capture lists. *)
Inductive rule :=
| RNoop                                             (* [](){} *)
| RAdd (self other out : ptr)                       (* operator+ *)
| RMul (self other out : ptr)                       (* operator* *)
| RPow (self : ptr) (exponent : float) (out : ptr)  (* pow *)
| RExp (self out : ptr)                             (* exp *)
| RTanh (self : ptr) (data : float) (out : ptr).    (* tanh *)

Record Value := mkValue {
  data : float;
  grad : float;
  _backward : rule;
  _prev : list ptr;
  _op : string;
  label : string
}.

Abbreviation Heap := (list Value) (only parsing).

Definition with_grad (n : Value) (g : float) : Value :=
  mkValue (data n) g (_backward n) (_prev n) (_op n) (label n).

Definition with_backward (n : Value) (r : rule) : Value :=
  mkValue (data n) (grad n) r (_prev n) (_op n) (label n).

(** ** Heap computations

    A computation reads and writes the arena and fails ([None]) when it
    dereferences an index that designates no object. *)

Definition M (A : Type) : Type := Heap → option (A * Heap).

Definition ret {A} (a : A) : M A := λ h, Some (a, h).

Definition bind {A B} (m : M A) (k : A → M B) : M B :=
  λ h, match m h with
       | Some (a, h') => k a h'
       | None => None
       end.

Notation "x <- m ;; k" := (bind m (λ x, k))
  (at level 100, m at next level, right associativity).
Notation "m ;;; k" := (bind m (λ _, k))
  (at level 100, right associativity).

(** [*p] *)
Definition deref (p : ptr) : M Value :=
  λ h, match h !! p with
       | Some n => Some (n, h)
       | None => None
       end.

(** [p->data], [p->grad] *)
Definition get_data (p : ptr) : M float := n <- deref p ;; ret (data n).
Definition get_grad (p : ptr) : M float := n <- deref p ;; ret (grad n).

(** [p->grad = g] *)
Definition set_grad (p : ptr) (g : float) : M unit :=
  λ h, match h !! p with
       | Some n => Some (tt, <[p := with_grad n g]> h)
       | None => None
       end.

(** [p->_backward = r] *)
Definition set_backward (p : ptr) (r : rule) : M unit :=
  λ h, match h !! p with
       | Some n => Some (tt, <[p := with_backward n r]> h)
       | None => None
       end.

(** [p->grad += amount] *)
Definition add_grad (p : ptr) (amount : float) : M unit :=
  g <- get_grad p ;; set_grad p (g + amount)%float.

(** [std::make_shared<Value>(val, children, op, lbl)]: the constructor sets
    [grad = 0] and [_backward = [](){}]; the new object gets a new address. *)
Definition make_shared (val : float) (children : list ptr)
    (op lbl : string) : M ptr :=
  λ h, Some (length h, h ++ [mkValue val 0 RNoop children op lbl]).

(** [std::make_shared<Value>(s)], the other arguments defaulted: a leaf. *)
Definition constant (s : float) : M ptr := make_shared s [] "" "".

(** ** Operation builders *)

Section Builders.
Context {libm : Libm}.

(** [operator+(shared_ptr, shared_ptr)] *)
Definition add (self other : ptr) : M ptr :=
  a <- get_data self ;;
  b <- get_data other ;;
  out <- make_shared (a + b)%float [self; other] "+" "" ;;
  set_backward out (RAdd self other out) ;;;
  ret out.

(** [operator+(shared_ptr, double)] *)
Definition add_d (self : ptr) (other : float) : M ptr :=
  other_val <- constant other ;;
  add self other_val.

(** [operator+(double, shared_ptr)] *)
Definition d_add (self_val : float) (other : ptr) : M ptr :=
  self <- constant self_val ;;
  add self other.

(** [operator*(shared_ptr, shared_ptr)] *)
Definition mul (self other : ptr) : M ptr :=
  a <- get_data self ;;
  b <- get_data other ;;
  out <- make_shared (a * b)%float [self; other] "*" "" ;;
  set_backward out (RMul self other out) ;;;
  ret out.

(** [operator*(shared_ptr, double)] *)
Definition mul_d (self : ptr) (other : float) : M ptr :=
  other_val <- constant other ;;
  mul self other_val.

(** [operator*(double, shared_ptr)] *)
Definition d_mul (self : float) (other : ptr) : M ptr :=
  self_val <- constant self ;;
  mul self_val other.

(** [pow(shared_ptr, double)] *)
Definition pow (self : ptr) (exponent : float) : M ptr :=
  a <- get_data self ;;
  out <- make_shared (c_pow a exponent) [self]
           (String.append "**" (to_string exponent)) "" ;;
  set_backward out (RPow self exponent out) ;;;
  ret out.

(** [operator/(shared_ptr, shared_ptr)] *)
Definition div (self other : ptr) : M ptr :=
  r <- pow other (-1)%float ;;
  mul self r.

(** [operator/(shared_ptr, double)] *)
Definition div_d (self : ptr) (other : float) : M ptr :=
  mul_d self (1 / other)%float.

(** [operator/(double, shared_ptr)] *)
Definition d_div (self : float) (other : ptr) : M ptr :=
  self_val <- constant self ;;
  r <- pow other (-1)%float ;;
  mul self_val r.

(** unary [operator-(shared_ptr)] *)
Definition neg (self : ptr) : M ptr :=
  mul_d self (-1)%float.

(** [operator-(shared_ptr, shared_ptr)] *)
Definition sub (self other : ptr) : M ptr :=
  m <- neg other ;;
  add self m.

(** [operator-(shared_ptr, double)] *)
Definition sub_d (self : ptr) (other : float) : M ptr :=
  other_val <- constant other ;;
  m <- neg other_val ;;
  add self m.

(** [operator-(double, shared_ptr)] *)
Definition d_sub (self : float) (other : ptr) : M ptr :=
  self_val <- constant self ;;
  m <- neg other ;;
  add self_val m.

(** [exp(shared_ptr)] *)
Definition exp (self : ptr) : M ptr :=
  a <- get_data self ;;
  out <- make_shared (c_exp a) [self] "exp" "" ;;
  set_backward out (RExp self out) ;;;
  ret out.

(** [tanh(shared_ptr)] *)
Definition tanh (self : ptr) : M ptr :=
  x <- get_data self ;;
  let data := c_tanh x in
  out <- make_shared data [self] "tanh" "" ;;
  set_backward out (RTanh self data out) ;;;
  ret out.

(** ** The backward engine *)

(** Calling a stored closure: [n->_backward()]. *)
Definition run_rule (r : rule) : M unit :=
  match r with
  | RNoop => ret tt
  | RAdd self other out =>
      g <- get_grad out ;;
      add_grad self (1 * g)%float ;;;
      g' <- get_grad out ;;
      add_grad other (1 * g')%float
  | RMul self other out =>
      b <- get_data other ;;
      g <- get_grad out ;;
      add_grad self (b * g)%float ;;;
      a <- get_data self ;;
      g' <- get_grad out ;;
      add_grad other (a * g')%float
  | RPow self exponent out =>
      a <- get_data self ;;
      let derivative := (exponent * c_pow a (exponent - 1))%float in
      g <- get_grad out ;;
      add_grad self (derivative * g)%float
  | RExp self out =>
      d <- get_data out ;;
      g <- get_grad out ;;
      add_grad self (d * g)%float
  | RTanh self data out =>
      g <- get_grad out ;;
      add_grad self ((1 - data * data) * g)%float
  end.

(** The two local vectors of [backward]: [visited] and [topo]. *)
Definition tstate : Type := list ptr * list ptr.

(** [for (auto& x : visited) if (x == v) return;] *)
Definition seen (v : ptr) (visited : list ptr) : bool :=
  existsb (λ x, x =? v) visited.

(** [for (auto& child : v->_prev) build_topo(child);] *)
Fixpoint visit_all (visit : ptr → tstate → option tstate)
    (children : list ptr) (st : tstate) : option tstate :=
  match children with
  | [] => Some st
  | child :: rest =>
      match visit child st with
      | Some st' => visit_all visit rest st'
      | None => None
      end
  end.

(** The recursive lambda [build_topo]; [fuel] bounds the recursion depth. *)
Fixpoint build_topo (fuel : nat) (h : Heap) (v : ptr) (st : tstate)
    : option tstate :=
  match fuel with
  | 0 => None
  | S fuel' =>
      let '(visited, topo) := st in
      if seen v visited then Some st
      else
        match h !! v with
        | None => None
        | Some n =>
            match visit_all (build_topo fuel' h) (_prev n)
                    (visited ++ [v], topo) with
            | Some (visited', topo') => Some (visited', topo' ++ [v])
            | None => None
            end
        end
  end.

(** The order built for a call of [backward] on [self].  A nested call
    always marks a new object before it recurses, so the recursion is never
    deeper than the number of objects plus one. *)
Definition topo_order (h : Heap) (self : ptr) : option (list ptr) :=
  match build_topo (S (length h)) h self ([], []) with
  | Some (_, topo) => Some topo
  | None => None
  end.

(** The loop body [it->_backward()], for [it] running over the given
    sequence of objects. *)
Fixpoint replay (order : list ptr) : M unit :=
  match order with
  | [] => ret tt
  | it :: rest =>
      n <- deref it ;;
      run_rule (_backward n) ;;;
      replay rest
  end.

(** [Value::backward()] called on the object [self]. *)
Definition backward (self : ptr) : M unit :=
  λ h, match topo_order h self with
       | None => None
       | Some topo =>
           (set_grad self 1%float ;;;
            replay (reverse topo)) h
       end.

(** The recursion of [build_topo] is on the machine stack, one frame for
    each nested call, and the program dies when a call finds the stack
    full.  [topo_order] and [backward] above are the program on a machine
    whose stack is deep enough for the graph at hand; these are the
    program on a machine whose stack holds [frames] nested calls of
    [build_topo]. *)
Definition topo_order_on (frames : nat) (h : Heap) (self : ptr)
    : option (list ptr) :=
  match build_topo frames h self ([], []) with
  | Some (_, topo) => Some topo
  | None => None
  end.

Definition backward_on (frames : nat) (self : ptr) : M unit :=
  λ h, match topo_order_on frames h self with
       | None => None
       | Some topo =>
           (set_grad self 1%float ;;;
            replay (reverse topo)) h
       end.

End Builders.

(** ** The program of [main] *)

Section Main.
Context {libm : Libm}.

(** The graph [main] builds and differentiates; it returns the handles
    [a, b, c, f, e, d, L] the program prints from. *)
Definition main : M (ptr * ptr * ptr * ptr * ptr * ptr * ptr) :=
  a <- constant 2.0%float ;;
  b <- constant (-3.0)%float ;;
  c <- constant 10.0%float ;;
  f <- constant (-2.0)%float ;;
  e <- mul a b ;;
  d <- add e c ;;
  L <- mul d f ;;
  backward L ;;;
  ret (a, b, c, f, e, d, L).

End Main.

(** ** Client programs *)

(** One call of a builder (or of the leaf constructor), with its operands. *)
Inductive call :=
| Constant (s : float)
| Add (x y : ptr) | AddD (x : ptr) (s : float) | DAdd (s : float) (x : ptr)
| Mul (x y : ptr) | MulD (x : ptr) (s : float) | DMul (s : float) (x : ptr)
| Pow (x : ptr) (k : float)
| Div (x y : ptr) | DivD (x : ptr) (s : float) | DDiv (s : float) (x : ptr)
| Neg (x : ptr)
| Sub (x y : ptr) | SubD (x : ptr) (s : float) | DSub (s : float) (x : ptr)
| Exp (x : ptr)
| Tanh (x : ptr).

Definition build {libm : Libm} (c : call) : M ptr :=
  match c with
  | Constant s => constant s
  | Add x y => add x y
  | AddD x s => add_d x s
  | DAdd s x => d_add s x
  | Mul x y => mul x y
  | MulD x s => mul_d x s
  | DMul s x => d_mul s x
  | Pow x k => pow x k
  | Div x y => div x y
  | DivD x s => div_d x s
  | DDiv s x => d_div s x
  | Neg x => neg x
  | Sub x y => sub x y
  | SubD x s => sub_d x s
  | DSub s x => d_sub s x
  | Exp x => exp x
  | Tanh x => tanh x
  end.

(** The node operands of a call. *)
Definition operands (c : call) : list ptr :=
  match c with
  | Constant _ => []
  | Add x y | Mul x y | Div x y | Sub x y => [x; y]
  | AddD x _ | DAdd _ x | MulD x _ | DMul _ x | Pow x _ | DivD x _
  | DDiv _ x | Neg x | SubD x _ | DSub _ x | Exp x | Tanh x => [x]
  end.

(** One step of a client: it builds a node or differentiates. *)
Inductive api_step {libm : Libm} : Heap → Heap → Prop :=
| step_build c h out h' : build c h = Some (out, h') → api_step h h'
| step_backward self h h' : backward self h = Some (tt, h') → api_step h h'.

(** A straight-line client: a sequence of builder calls. *)
Fixpoint run_calls {libm : Libm} (cs : list call) (h : Heap) : option Heap :=
  match cs with
  | [] => Some h
  | c :: cs' =>
      match build c h with
      | Some (_, h') => run_calls cs' h'
      | None => None
      end
  end.

(** A builder followed by [backward] on the object it returns. *)
Definition then_backward {libm : Libm} (m : M ptr) : M ptr :=
  out <- m ;; backward out ;;; ret out.

(** * Specification *)

(** ** Vocabulary *)

(** Reading a field of the object at [p]. *)
Definition data_at (h : Heap) (p : ptr) : option float := data <$> h !! p.
Definition grad_at (h : Heap) (p : ptr) : option float := grad <$> h !! p.

(** The objects [x] points to directly, and the objects reachable from it. *)
Definition parents (h : Heap) (x : ptr) : list ptr :=
  match h !! x with
  | Some n => _prev n
  | None => []
  end.

Definition reach (h : Heap) : ptr → ptr → Prop :=
  rtc (λ x p, p ∈ parents h x).

(** The closure of the object at [v]. *)
Definition rule_of (h : Heap) (v : ptr) : rule :=
  match h !! v with
  | Some n => _backward n
  | None => RNoop
  end.

(** The addresses a closure writes to, and all the addresses it captures. *)
Definition rule_targets (r : rule) : list ptr :=
  match r with
  | RNoop => []
  | RAdd self other _ | RMul self other _ => [self; other]
  | RPow self _ _ | RExp self _ | RTanh self _ _ => [self]
  end.

Definition rule_ptrs (r : rule) : list ptr :=
  match r with
  | RNoop => []
  | RAdd self other out | RMul self other out => [self; other; out]
  | RPow self _ out | RExp self out | RTanh self _ out => [self; out]
  end.

(** A closure does not write to the object that holds it. *)
Definition self_free (r : rule) : Prop :=
  match r with
  | RNoop => True
  | RAdd self other out | RMul self other out => out ≠ self ∧ out ≠ other
  | RPow self _ out | RExp self out | RTanh self _ out => out ≠ self
  end.

(** Everything of a heap but the gradient accumulators. *)
Definition skel (n : Value) : Value := with_grad n 0.
Definition shape (h : Heap) : Heap := skel <$> h.

(** Every pointer stored in an object designates an object. *)
Definition closed (h : Heap) : Prop :=
  ∀ i n, h !! i = Some n →
    (∀ p, p ∈ _prev n → p < length h) ∧
    (∀ p, p ∈ rule_ptrs (_backward n) → p < length h).

(** The parents stored in the objects designate objects. *)
Definition prev_closed (h : Heap) : Prop :=
  ∀ i n p, h !! i = Some n → p ∈ _prev n → p < length h.

(** A directed acyclic graph: no object is reachable from one of its own
    parents. *)
Definition dag (h : Heap) : Prop :=
  ∀ x p, p ∈ parents h x → ¬ reach h p x.

(** A graph built by the constructors is acyclic by construction: an
    object only points to objects allocated before it. *)
Definition acyclic (h : Heap) : Prop :=
  ∀ i n p, h !! i = Some n → p ∈ _prev n → p < i.

(** The closure stored in object [i] captures [i] itself as [out] and its
    own parents as operands; [tanh] also captures the value of [out]. *)
Definition wf_rule (i : ptr) (n : Value) : Prop :=
  match _backward n with
  | RNoop => True
  | RAdd self other out | RMul self other out =>
      out = i ∧ _prev n = [self; other]
  | RPow self _ out | RExp self out => out = i ∧ _prev n = [self]
  | RTanh self d out => out = i ∧ _prev n = [self] ∧ d = data n
  end.

(** The graphs the constructors and builders make. *)
Definition wf (h : Heap) : Prop :=
  acyclic h ∧ ∀ i n, h !! i = Some n → wf_rule i n.

(** A computation that only allocates: the heap it returns is the heap it
    got followed by new objects, and it keeps graphs well formed. *)
Definition grows (m : M ptr) : Prop :=
  ∀ h out h', m h = Some (out, h') →
    (∃ fresh, h' = h ++ fresh) ∧ out < length h' ∧ (wf h → wf h').

(** Every entry of [order] comes after all of its own parents. *)
Definition parents_before (h : Heap) (order : list ptr) : Prop :=
  ∀ i x, order !! i = Some x →
    ∀ p, p ∈ parents h x → ∃ j, j < i ∧ order !! j = Some p.

(** How many of the addresses in [l] are not yet marked. *)
Definition unmarked (l visited : list ptr) : nat :=
  length (filter (λ i, i ∉ visited) l).

(** What a call of [build_topo] does to [visited] and [topo]: it appends to
    [topo] new objects [newt], all from [R] and none marked before, it marks
    exactly these, and the parents of each of them end up marked. *)
Definition dfs_marks (h : Heap) (R : ptr → Prop) (st st' : tstate) : Prop :=
  ∃ newt,
    st'.2 = st.2 ++ newt ∧
    NoDup newt ∧
    (∀ x, x ∈ newt → x ∉ st.1) ∧
    (∀ x, x ∈ newt → R x) ∧
    (∀ x, x ∈ st'.1 ↔ x ∈ st.1 ∨ x ∈ newt) ∧
    (∀ x p, x ∈ newt → p ∈ parents h x → p ∈ st'.1).

(** What holds when a call starts: finished objects are marked, the order
    so far is sound, and the objects marked but not finished (the callers
    on the stack) all satisfy [G]. *)
Definition dfs_pre (h : Heap) (G : ptr → Prop) (st : tstate) : Prop :=
  (∀ x, x ∈ st.2 → x ∈ st.1) ∧
  parents_before h st.2 ∧
  (∀ g, g ∈ st.1 → g ∉ st.2 → G g).

(** One [+=] on a gradient: the object written and the amount added. *)
Definition deposit : Type := ptr * float.

(** The local rules as a table: what the closure [r], run in the state [h],
    adds to which operand. *)
Definition rule_deposits {libm : Libm} (r : rule) (h : Heap)
    : option (list deposit) :=
  match r with
  | RNoop => Some []
  | RAdd self other out =>
      g ← grad_at h out;
      Some [(self, 1 * g); (other, 1 * g)]%float
  | RMul self other out =>
      a ← data_at h self;
      b ← data_at h other;
      g ← grad_at h out;
      Some [(self, b * g); (other, a * g)]%float
  | RPow self exponent out =>
      a ← data_at h self;
      g ← grad_at h out;
      Some [(self, exponent * c_pow a (exponent - 1) * g)]%float
  | RExp self out =>
      d ← data_at h out;
      g ← grad_at h out;
      Some [(self, d * g)]%float
  | RTanh self data out =>
      g ← grad_at h out;
      Some [(self, (1 - data * data) * g)]%float
  end.

(** The deposits of a whole replay, in the order they are made. *)
Fixpoint replay_log {libm : Libm} (order : list ptr) (h : Heap)
    : option (list deposit) :=
  match order with
  | [] => Some []
  | it :: rest =>
      n ← h !! it;
      ds ← rule_deposits (_backward n) h;
      '(_, h') ← run_rule (_backward n) h;
      log ← replay_log rest h';
      Some (ds ++ log)
  end.

(** The accumulator of [x] after the deposits of [log] were added, in
    order, to the value [g]. *)
Definition credit (x : ptr) (log : list deposit) (g : float) : float :=
  fold_left (λ acc d, if decide (d.1 = x) then (acc + d.2)%float else acc)
    log g.

(** [h'] is [h] with [amount] added to the gradient of [x]. *)
Definition adds_to (x : ptr) (amount : float) (h h' : Heap) : Prop :=
  ∃ n, h !! x = Some n ∧ h' = <[x := with_grad n (grad n + amount)]> h.

(** The compositions as the specification words them:
    [negate(x) = multiply(x, constant(-1))],
    [subtract(x, y) = add(x, negate(y))],
    [divide(x, y) = multiply(x, power(y, -1))]. *)
Definition negate_spec {libm : Libm} (x : ptr) : M ptr :=
  c <- constant (-1)%float ;; mul x c.

Definition subtract_spec {libm : Libm} (x y : ptr) : M ptr :=
  m <- negate_spec y ;; add x m.

Definition divide_spec {libm : Libm} (x y : ptr) : M ptr :=
  r <- pow y (-1)%float ;; mul x r.

(** Promotion as the specification words it: the scalar becomes a fresh
    constant leaf, then the builder for two nodes runs. *)
Definition promote_right (op : ptr → ptr → M ptr) (x : ptr) (s : float)
    : M ptr :=
  c <- constant s ;; op x c.

Definition promote_left (op : ptr → ptr → M ptr) (s : float) (x : ptr)
    : M ptr :=
  c <- constant s ;; op c x.

(** ** Vocabulary for the builders and the tags *)

(** The number held by the object at [p] ([0] where there is none). *)
Definition value (h : Heap) (p : ptr) : float :=
  from_option data 0%float (h !! p).

(** How many objects a call allocates: its result, and the constants and
    intermediate results it makes on the way. *)
Definition allocs (c : call) : nat :=
  match c with
  | Constant _ | Add _ _ | Mul _ _ | Pow _ _ | Exp _ | Tanh _ => 1
  | AddD _ _ | DAdd _ _ | MulD _ _ | DMul _ _ | Div _ _ | DivD _ _
  | Neg _ => 2
  | DDiv _ _ | Sub _ _ => 3
  | SubD _ _ | DSub _ _ => 4
  end.

(** The number the result of a call holds, from the numbers of its
    operands. *)
Definition forward {libm : Libm} (c : call) (h : Heap) : float :=
  match c with
  | Constant s => s
  | Add x y => value h x + value h y
  | AddD x s => value h x + s
  | DAdd s x => s + value h x
  | Mul x y => value h x * value h y
  | MulD x s => value h x * s
  | DMul s x => s * value h x
  | Pow x k => c_pow (value h x) k
  | Div x y => value h x * c_pow (value h y) (-1)
  | DivD x s => value h x * (1 / s)
  | DDiv s x => s * c_pow (value h x) (-1)
  | Neg x => value h x * -1
  | Sub x y => value h x + value h y * -1
  | SubD x s => value h x + s * -1
  | DSub s x => s + value h x * -1
  | Exp x => c_exp (value h x)
  | Tanh x => c_tanh (value h x)
  end%float.

(** What the closure of [v] adds to its operands when it runs in the
    state [h] (nothing where an object it reads is missing). *)
Definition deposits_of {libm : Libm} (h : Heap) (v : ptr) : list deposit :=
  default [] (rule_deposits (rule_of h v) h).

(** The builder call [m], run in [h] and followed by a pass from the object
    it returns, leaves the gradient [1] at that object and [g] at [x]. *)
Definition leaves_gradient {libm : Libm} (m : M ptr) (h : Heap) (x : ptr)
    (g : float) : Prop :=
  ∃ out h1 h2,
    m h = Some (out, h1) ∧ backward out h1 = Some (tt, h2) ∧
    grad_at h2 out = Some 1%float ∧ grad_at h2 x = Some g.

(** An object with its tag and its label erased. *)
Definition strip_tags (n : Value) : Value :=
  mkValue (data n) (grad n) (_backward n) (_prev n) "" "".

(** A computation that does not look at tags and labels: on the heap with
    the tags erased it does what it does on the heap itself, tags erased. *)
Definition tag_blind {A} (m : M A) : Prop :=
  ∀ h : Heap,
    m (strip_tags <$> h)
      = (λ r : A * Heap, (r.1, strip_tags <$> r.2)) <$> m h.

(** A computation that objects allocated later do not disturb. *)
Definition local {A} (m : M A) : Prop :=
  ∀ h fresh a h',
    m h = Some (a, h') → m (h ++ fresh) = Some (a, h' ++ fresh).

(** ** Example graphs *)

(** A stand-in for the math library, to run the model on examples:
    first-order approximations, exact at [exp 0], [tanh 0] and [pow 1 k]. *)
Definition sample_libm : Libm :=
  {| c_pow := λ x k, (1 + k * (x - 1))%float;
     c_exp := λ x, (1 + x)%float;
     c_tanh := λ x, x;
     to_string := λ _, "" |}.

(** A diamond whose two leaves hold the same number:
    [p = x * y], [q = x + y], [z = p * q] with [x = y = 3]. *)
Definition diamond_calls : list call :=
  [Constant 3; Constant 3; Mul 0 1; Add 0 1; Mul 2 3].

Definition diamond : Heap :=
  [ mkValue 3 0 RNoop [] "" "";
    mkValue 3 0 RNoop [] "" "";
    mkValue 9 0 (RMul 0 1 2) [0; 1] "*" "";
    mkValue 6 0 (RAdd 0 1 3) [0; 1] "+" "";
    mkValue 54 0 (RMul 2 3 4) [2; 3] "*" "" ].

(** The diamond after [z->backward()]: the closed forms
    [dz/dx = y * q + p], [dz/dy = x * q + p], [dz/dp = q], [dz/dq = p]. *)
Definition diamond_after : Heap :=
  [ mkValue 3 27 RNoop [] "" "";
    mkValue 3 27 RNoop [] "" "";
    mkValue 9 6 (RMul 0 1 2) [0; 1] "*" "";
    mkValue 6 9 (RAdd 0 1 3) [0; 1] "+" "";
    mkValue 54 1 (RMul 2 3 4) [2; 3] "*" "" ].


(** One leaf holding [0.0], as [constant(0.0)] makes it. *)
Definition zero_leaf : Heap := [ mkValue 0.0%float 0 RNoop [] "" "" ].

(** One leaf holding [3.0]. *)
Definition three_leaf : Heap := [ mkValue 3.0%float 0 RNoop [] "" "" ].

(** * Lemmas *)

(** ** Basic facts about heap computations *)

Lemma bind_Some {A B} (m : M A) (k : A → M B) h r :
  bind m k h = Some r ↔ ∃ a h1, m h = Some (a, h1) ∧ k a h1 = Some r.
Proof.
  unfold bind. destruct (m h) as [[a h1]|]; split.
  - eauto.
  - intros (? & ? & [= <- <-] & ?). done.
  - done.
  - intros (? & ? & ? & ?). done.
Qed.

Lemma ret_Some {A} (a : A) h r : ret a h = Some r ↔ r = (a, h).
Proof. unfold ret. split; [intros [= <-] | intros ->]; done. Qed.

Lemma deref_Some p h r : deref p h = Some r ↔ ∃ n, h !! p = Some n ∧ r = (n, h).
Proof.
  unfold deref. destruct (h !! p) as [n|]; split.
  - intros [= <-]. eauto.
  - intros (? & [= <-] & ->). done.
  - done.
  - intros (? & ? & ?). done.
Qed.

Lemma get_data_Some p h r :
  get_data p h = Some r ↔ ∃ n, h !! p = Some n ∧ r = (data n, h).
Proof.
  unfold get_data. rewrite bind_Some. split.
  - intros (n & h1 & (n' & Hn & [= <- <-])%deref_Some & ->%ret_Some). eauto.
  - intros (n & Hn & ->). exists n, h. rewrite deref_Some, ret_Some. eauto.
Qed.

Lemma get_grad_Some p h r :
  get_grad p h = Some r ↔ ∃ n, h !! p = Some n ∧ r = (grad n, h).
Proof.
  unfold get_grad. rewrite bind_Some. split.
  - intros (n & h1 & (n' & Hn & [= <- <-])%deref_Some & ->%ret_Some). eauto.
  - intros (n & Hn & ->). exists n, h. rewrite deref_Some, ret_Some. eauto.
Qed.

Lemma set_grad_Some p g h r :
  set_grad p g h = Some r ↔
  ∃ n, h !! p = Some n ∧ r = (tt, <[p := with_grad n g]> h).
Proof.
  unfold set_grad. destruct (h !! p) as [n|]; split.
  - intros [= <-]. eauto.
  - intros (? & [= <-] & ->). done.
  - done.
  - intros (? & ? & ?). done.
Qed.

Lemma set_backward_Some p b h r :
  set_backward p b h = Some r ↔
  ∃ n, h !! p = Some n ∧ r = (tt, <[p := with_backward n b]> h).
Proof.
  unfold set_backward. destruct (h !! p) as [n|]; split.
  - intros [= <-]. eauto.
  - intros (? & [= <-] & ->). done.
  - done.
  - intros (? & ? & ?). done.
Qed.

Lemma add_grad_Some p a h r :
  add_grad p a h = Some r ↔
  ∃ n, h !! p = Some n ∧ r = (tt, <[p := with_grad n (grad n + a)]> h).
Proof.
  unfold add_grad. rewrite bind_Some. split.
  - intros (g & h1 & (n & Hn & [= -> ->])%get_grad_Some & Hs).
    apply set_grad_Some in Hs as (n' & Hn' & ->).
    assert (n' = n) as -> by congruence. eauto.
  - intros (n & Hn & ->). exists (grad n), h.
    rewrite get_grad_Some, set_grad_Some. split; eauto.
Qed.

Lemma make_shared_Some val children op lbl h r :
  make_shared val children op lbl h = Some r ↔
  r = (length h, h ++ [mkValue val 0 RNoop children op lbl]).
Proof. unfold make_shared. split; [intros [= <-] | intros ->]; done. Qed.

(** Decomposing a successful computation into its steps. *)
Ltac minv :=
  repeat match goal with
  | H : bind _ _ _ = Some _ |- _ => apply bind_Some in H as (? & ? & ? & ?)
  | H : ret _ _ = Some _ |- _ => apply ret_Some in H
  | H : deref _ _ = Some _ |- _ => apply deref_Some in H as (? & ? & ?)
  | H : get_data _ _ = Some _ |- _ => apply get_data_Some in H as (? & ? & ?)
  | H : get_grad _ _ = Some _ |- _ => apply get_grad_Some in H as (? & ? & ?)
  | H : set_grad _ _ _ = Some _ |- _ => apply set_grad_Some in H as (? & ? & ?)
  | H : set_backward _ _ _ = Some _ |- _ =>
      apply set_backward_Some in H as (? & ? & ?)
  | H : add_grad _ _ _ = Some _ |- _ => apply add_grad_Some in H as (? & ? & ?)
  | H : make_shared _ _ _ _ _ = Some _ |- _ => apply make_shared_Some in H
  end; simplify_eq.

(** Writing a gradient changes nothing else. *)

Lemma shape_length h : length (shape h) = length h.
Proof. apply length_fmap. Qed.

Lemma shape_lookup h i : shape h !! i = skel <$> h !! i.
Proof. apply list_lookup_fmap. Qed.

Lemma shape_with_grad h p n g :
  h !! p = Some n → shape (<[p := with_grad n g]> h) = shape h.
Proof.
  intros Hn. unfold shape. rewrite list_fmap_insert.
  apply list_insert_id. rewrite list_lookup_fmap, Hn. done.
Qed.

Lemma shape_eq_length h h' : shape h' = shape h → length h' = length h.
Proof. intros E. rewrite <- (shape_length h'), E. apply shape_length. Qed.

Lemma shape_eq_lookup h h' i n :
  shape h' = shape h → h !! i = Some n →
  ∃ n', h' !! i = Some n' ∧ skel n' = skel n.
Proof.
  intros E Hn. assert (shape h' !! i = Some (skel n)) as Hs.
  { rewrite E, shape_lookup, Hn. done. }
  rewrite shape_lookup in Hs. destruct (h' !! i) as [n'|]; simpl in Hs; [|done].
  exists n'. split; [done|]. unfold skel, with_grad in *. congruence.
Qed.

Section Engine.
Context {libm : Libm}.

Lemma run_rule_frame r h h' :
  run_rule r h = Some (tt, h') →
  shape h' = shape h ∧ ∀ x, x ∉ rule_targets r → h' !! x = h !! x.
Proof.
  destruct r; simpl; intros Hr; minv;
    (split;
     [ repeat (erewrite shape_with_grad by eassumption); done
     | intros x Hx; rewrite ?not_elem_of_cons in Hx;
       rewrite ?list_lookup_insert_ne by (intros ->; tauto); done ]).
Qed.

End Engine.

(** ** The traversal terminates *)

Lemma in_reverse {A} (x : A) (l : list A) : x ∈ reverse l → x ∈ l.
Proof. apply elem_of_reverse. Qed.

Lemma seen_spec v visited : seen v visited = true ↔ v ∈ visited.
Proof.
  unfold seen. rewrite existsb_exists. split.
  - intros (x & Hx%list_elem_of_In & ->%Nat.eqb_eq). done.
  - intros Hv. exists v. rewrite <- list_elem_of_In, Nat.eqb_eq. done.
Qed.

Lemma seen_false v visited : seen v visited = false ↔ v ∉ visited.
Proof. rewrite <- seen_spec. destruct (seen v visited); naive_solver. Qed.

Lemma unmarked_mono l (vis vis' : list ptr) :
  vis ⊆ vis' → unmarked l vis' ≤ unmarked l vis.
Proof.
  intros Hsub. unfold unmarked. induction l as [|a l IH]; [done|].
  rewrite !filter_cons.
  destruct (decide (a ∉ vis')) as [Ha'|Ha'], (decide (a ∉ vis)) as [Ha|Ha];
    simpl; try lia.
  exfalso. apply Ha. intros Hin. by apply Ha', Hsub.
Qed.

Lemma unmarked_mark l (vis : list ptr) v :
  v ∈ l → v ∉ vis → unmarked l (vis ++ [v]) < unmarked l vis.
Proof.
  intros Hl Hv. unfold unmarked. induction l as [|a l IH]; [by inversion Hl|].
  assert (length (filter (λ i, i ∉ vis ++ [v]) l)
          ≤ length (filter (λ i, i ∉ vis) l)) as Hle.
  { apply (unmarked_mono l vis (vis ++ [v])). intros x Hx.
    apply elem_of_app. by left. }
  rewrite !filter_cons.
  destruct (decide (a = v)) as [->|Hne].
  - rewrite decide_False, decide_True; [simpl; lia|done|].
    intros Hn. apply Hn, elem_of_app. right. by left.
  - apply elem_of_cons in Hl as [->|Hl]; [done|]. specialize (IH Hl).
    destruct (decide (a ∉ vis ++ [v])) as [Ha'|Ha'], (decide (a ∉ vis)) as [Ha|Ha];
      simpl; try lia.
    exfalso. apply Ha. intros Hin. apply Ha', elem_of_app. by left.
Qed.

Section Termination.
Context (h : Heap).
Hypothesis prev_in_range :
  ∀ i n p, h !! i = Some n → p ∈ _prev n → p < length h.

Let budget (visited : list ptr) : nat := unmarked (seq 0 (length h)) visited.

Lemma visit_all_total (visit : ptr → tstate → option tstate) (k : nat) :
  (∀ c st, c < length h → budget st.1 ≤ k →
     ∃ st', visit c st = Some st' ∧ st.1 ⊆ st'.1) →
  ∀ children st,
    (∀ c, c ∈ children → c < length h) → budget st.1 ≤ k →
    ∃ st', visit_all visit children st = Some st' ∧ st.1 ⊆ st'.1.
Proof.
  intros Hvisit children.
  induction children as [|c cs IH]; intros st Hcs Hk; simpl.
  - exists st. done.
  - destruct (Hvisit c st) as (st1 & -> & Hsub1); [apply Hcs; by left|done|].
    destruct (IH st1) as (st2 & -> & Hsub2);
      [intros c' Hc'; apply Hcs; by right| |].
    + pose proof (unmarked_mono (seq 0 (length h)) _ _ Hsub1).
      unfold budget in *. lia.
    + exists st2. split; [done|]. by etrans.
Qed.

Lemma build_topo_total fuel :
  ∀ v st, v < length h → budget st.1 < fuel →
    ∃ st', build_topo fuel h v st = Some st' ∧ st.1 ⊆ st'.1.
Proof.
  induction fuel as [|fuel IH]; intros v [vis topo] Hv Hfuel; [lia|].
  simpl in *. destruct (seen v vis) eqn:Hseen; [by eexists|].
  apply seen_false in Hseen.
  destruct (lookup_lt_is_Some_2 h v Hv) as [n Hn]. rewrite Hn.
  assert (budget (vis ++ [v]) < budget vis) as Hdec.
  { apply unmarked_mark; [|done]. apply elem_of_seq. lia. }
  destruct (visit_all_total (build_topo fuel h) (budget (vis ++ [v]))) with
    (children := _prev n) (st := (vis ++ [v], topo)) as ([vis' topo'] & -> & Hsub).
  - intros c st Hc Hb. apply IH; [done|]. lia.
  - intros c Hc. by eapply prev_in_range.
  - done.
  - eexists. split; [done|]. simpl in *. intros x Hx. apply Hsub.
    apply elem_of_app. by left.
Qed.

Lemma topo_order_total self :
  self < length h → ∃ topo, topo_order h self = Some topo.
Proof.
  intros Hself. unfold topo_order.
  destruct (build_topo_total (S (length h)) self ([], [])) as ([vis topo] & -> & _).
  - done.
  - simpl. unfold budget, unmarked.
    pose proof (length_filter (λ i, i ∉ []) (seq 0 (length h))) as Hle.
    rewrite length_seq in Hle. lia.
  - by eexists.
Qed.

End Termination.

(** ** The order built by the traversal *)

Lemma acyclic_in_range h i n p :
  acyclic h → h !! i = Some n → p ∈ _prev n → p < length h.
Proof.
  intros Hacyc Hn Hp. pose proof (Hacyc _ _ _ Hn Hp).
  apply lookup_lt_Some in Hn. lia.
Qed.

Lemma parents_before_snoc h order v :
  parents_before h order → (∀ p, p ∈ parents h v → p ∈ order) →
  parents_before h (order ++ [v]).
Proof.
  intros Hord Hv i x Hi p Hp.
  destruct (decide (i < length order)) as [Hlt|Hge].
  - rewrite lookup_app_l in Hi by done.
    destruct (Hord i x Hi p Hp) as (j & Hj & Hjp).
    exists j. split; [done|]. rewrite lookup_app_l by lia. done.
  - assert (x = v) as ->.
    { rewrite lookup_app_r in Hi by lia.
      apply list_lookup_singleton_Some in Hi as [_ ?]. done. }
    apply Hv, list_elem_of_lookup in Hp as [j Hj].
    pose proof (lookup_lt_Some _ _ _ Hj).
    exists j. split; [lia|]. rewrite lookup_app_l by done. done.
Qed.

Section Marks.
Context (h : Heap).

Lemma dfs_marks_refl (R : ptr → Prop) st : dfs_marks h R st st.
Proof.
  exists []. rewrite app_nil_r.
  split; [done|]. split; [constructor|]. split; [by inversion 1|].
  split; [by inversion 1|]. split; [|by inversion 1].
  intros x. split; [by left|]. intros [?|Hx]; [done|by inversion Hx].
Qed.

Lemma dfs_marks_mono (R : ptr → Prop) st st' x :
  dfs_marks h R st st' → x ∈ st.1 → x ∈ st'.1.
Proof. intros (newt & _ & _ & _ & _ & Hv & _) Hx. apply Hv. by left. Qed.

Lemma dfs_marks_trans (R1 R2 : ptr → Prop) st st1 st2 :
  dfs_marks h R1 st st1 → dfs_marks h R2 st1 st2 →
  dfs_marks h (λ x, R1 x ∨ R2 x) st st2.
Proof.
  intros (n1 & Ht1 & Hnd1 & Hf1 & HR1 & Hv1 & Hp1)
         (n2 & Ht2 & Hnd2 & Hf2 & HR2 & Hv2 & Hp2).
  exists (n1 ++ n2). split; [by rewrite Ht2, Ht1, app_assoc|].
  split.
  { apply NoDup_app. split; [done|]. split; [|done].
    intros x Hx1 Hx2. apply (Hf2 x Hx2), Hv1. by right. }
  split.
  { intros x [Hx|Hx]%elem_of_app; [by apply Hf1|].
    intros Hin. apply (Hf2 x Hx), Hv1. by left. }
  split.
  { intros x [Hx|Hx]%elem_of_app; [left; by apply HR1|right; by apply HR2]. }
  split.
  { intros x. rewrite Hv2, Hv1, elem_of_app. tauto. }
  intros x p [Hx|Hx]%elem_of_app Hp.
  - apply Hv2. left. by eapply Hp1.
  - by eapply Hp2.
Qed.

Lemma dfs_marks_weaken (R R' : ptr → Prop) st st' :
  (∀ x, R x → R' x) → dfs_marks h R st st' → dfs_marks h R' st st'.
Proof.
  intros HRR (newt & Ht & Hnd & Hf & HR & Hv & Hp).
  exists newt. repeat split; auto; by apply Hv.
Qed.

Lemma visit_all_marks (visit : ptr → tstate → option tstate) :
  (∀ c st st', visit c st = Some st' →
     dfs_marks h (reach h c) st st' ∧ c ∈ st'.1) →
  ∀ children st st',
    visit_all visit children st = Some st' →
    dfs_marks h (λ x, ∃ c, c ∈ children ∧ reach h c x) st st' ∧
    (∀ c, c ∈ children → c ∈ st'.1).
Proof.
  intros Hvisit children.
  induction children as [|c cs IH]; intros st st' Hrun; simpl in Hrun.
  - injection Hrun as <-. split; [apply dfs_marks_refl|by inversion 1].
  - destruct (visit c st) as [st1|] eqn:Hc; [|done].
    destruct (Hvisit c st st1 Hc) as [Hm1 Hc1].
    destruct (IH st1 st' Hrun) as [Hm2 Hcs].
    split.
    + eapply dfs_marks_weaken; [|by eapply dfs_marks_trans].
      intros x [Hx|(c' & Hc' & Hx)]; [exists c|exists c'];
        (split; [|done]); [by left|by right].
    + intros c' [-> |Hc']%elem_of_cons; [|by apply Hcs].
      by eapply dfs_marks_mono.
Qed.

Lemma build_topo_marks fuel :
  ∀ v st st',
    build_topo fuel h v st = Some st' →
    dfs_marks h (reach h v) st st' ∧ v ∈ st'.1.
Proof.
  induction fuel as [|fuel IH]; intros v [vis topo] st' Hrun; [done|].
  simpl in Hrun. destruct (seen v vis) eqn:Hseen.
  { injection Hrun as <-. apply seen_spec in Hseen.
    split; [apply dfs_marks_refl|done]. }
  apply seen_false in Hseen.
  destruct (h !! v) as [n|] eqn:Hn; [|done].
  destruct (visit_all _ _ _) as [[vis2 topo2]|] eqn:Hall; [|done].
  injection Hrun as <-.
  apply (visit_all_marks (build_topo fuel h) IH) in Hall as [Hm Hmarked].
  destruct Hm as (newt & Ht & Hnd & Hfresh & HR & Hvis & Hpar).
  simpl in *.
  assert (v ∈ vis2) as Hv2.
  { apply Hvis. left. apply elem_of_app. right. by left. }
  split; [|done].
  exists (newt ++ [v]). simpl.
  assert (v ∉ newt) as Hvn.
  { intros Hx. apply (Hfresh v Hx), elem_of_app. right. by left. }
  split; [by rewrite Ht, app_assoc|].
  split.
  { apply NoDup_app. split; [done|]. split; [|apply NoDup_singleton].
    intros x Hx ->%list_elem_of_singleton. done. }
  split.
  { intros x [Hx| ->%list_elem_of_singleton]%elem_of_app; [|done].
    intros Hin. apply (Hfresh x Hx), elem_of_app. by left. }
  split.
  { intros x [Hx| ->%list_elem_of_singleton]%elem_of_app;
      [|by apply rtc_refl].
    destruct (HR x Hx) as (c & Hc & Hcx).
    eapply rtc_l; [|done]. unfold parents. by rewrite Hn. }
  split.
  { intros x. rewrite Hvis, !elem_of_app, list_elem_of_singleton. tauto. }
  intros x p [Hx| ->%list_elem_of_singleton]%elem_of_app Hp.
  - by eapply Hpar.
  - unfold parents in Hp. rewrite Hn in Hp. by apply Hmarked.
Qed.

(** On any graph, cyclic or not, the order holds the objects reachable
    from [self], each once. *)
Lemma topo_order_reach self topo :
  topo_order h self = Some topo →
  NoDup topo ∧ ∀ x, x ∈ topo ↔ reach h self x.
Proof.
  unfold topo_order. intros Hrun.
  destruct (build_topo _ _ _ _) as [[vis topo']|] eqn:Hb; [|done].
  injection Hrun as ->.
  apply build_topo_marks in Hb
    as [(newt & Ht & Hnd & _ & HR & Hvis & Hpar) Hself].
  simpl in *. subst newt. split; [done|].
  assert (∀ x, x ∈ vis → x ∈ topo) as Hsub.
  { intros x [Hx|Hx]%Hvis; [by inversion Hx|done]. }
  intros x. split; [by apply HR|].
  revert x. apply rtc_ind_r.
  - by apply Hsub.
  - intros y z _ Hyz Hy. by eapply Hsub, Hpar.
Qed.

End Marks.

Section Order.
Context (h : Heap).
Hypothesis Hdag : dag h.

Lemma dfs_pre_step (G R : ptr → Prop) st st' :
  dfs_pre h G st → dfs_marks h R st st' → parents_before h st'.2 →
  dfs_pre h G st'.
Proof.
  intros (Hsub & _ & Hgray) (newt & Ht & Hnd & Hfresh & HR & Hvis & _) Hord.
  split; [|split].
  - intros x. rewrite Ht, Hvis, elem_of_app. intros [?|?]; auto.
  - done.
  - intros g. rewrite Ht, Hvis, elem_of_app. intros [Hg|Hg] Hn.
    + apply Hgray; [done|]. intros ?. apply Hn. by left.
    + exfalso. apply Hn. by right.
Qed.

Lemma dfs_pre_weaken (G G' : ptr → Prop) st :
  (∀ g, G g → G' g) → dfs_pre h G st → dfs_pre h G' st.
Proof.
  intros HGG (Hsub & Hord & Hgray). split; [done|split; [done|]].
  intros g Hg Hn. by apply HGG, Hgray.
Qed.

Lemma visit_all_order (visit : ptr → tstate → option tstate)
    (G : ptr → Prop) (all : list ptr) :
  (∀ c st st', visit c st = Some st' →
     dfs_marks h (reach h c) st st' ∧ c ∈ st'.1) →
  (∀ c st st', c ∈ all → visit c st = Some st' → dfs_pre h G st →
     parents_before h st'.2) →
  ∀ children st st',
    (∀ c, c ∈ children → c ∈ all) →
    visit_all visit children st = Some st' → dfs_pre h G st →
    dfs_pre h G st'.
Proof.
  intros Hmarks Horder children.
  induction children as [|c cs IH]; intros st st' Hin Hrun Hpre; simpl in Hrun.
  - by injection Hrun as <-.
  - destruct (visit c st) as [st1|] eqn:Hc; [|done].
    apply (IH st1 st'); [intros c' Hc'; apply Hin; by right|done|].
    destruct (Hmarks c st st1 Hc) as [Hm _].
    eapply dfs_pre_step; [done..|].
    apply (Horder c st st1); [apply Hin; by left|done..].
Qed.

(** The callers on the stack all reach the object being visited; a parent
    still on the stack when its child finishes would close a cycle. *)
Lemma build_topo_order fuel :
  ∀ v st st',
    build_topo fuel h v st = Some st' →
    dfs_pre h (λ g, reach h g v) st →
    parents_before h st'.2.
Proof.
  induction fuel as [|fuel IH]; intros v [vis topo] st' Hrun Hpre; [done|].
  simpl in Hrun. destruct (seen v vis) eqn:Hseen.
  { injection Hrun as <-. apply Hpre. }
  apply seen_false in Hseen.
  destruct (h !! v) as [n|] eqn:Hn; [|done].
  destruct (visit_all _ _ _) as [[vis2 topo2]|] eqn:Hall; [|done].
  injection Hrun as <-.
  assert (∀ c, c ∈ _prev n → c ∈ parents h v) as Hpar.
  { intros c Hc. unfold parents. by rewrite Hn. }
  assert (dfs_pre h (λ g, reach h g v) (vis ++ [v], topo)) as Hpre1.
  { destruct Hpre as (Hsub & Hord & Hgray). split; [|split]; simpl in *.
    - intros x Hx. apply elem_of_app. left. by apply Hsub.
    - done.
    - intros g [Hg|Hg]%elem_of_app Hnt; [by apply Hgray|].
      apply list_elem_of_singleton in Hg as ->. apply rtc_refl. }
  pose proof (visit_all_marks h (build_topo fuel h) (build_topo_marks h fuel)
                _ _ _ Hall) as [_ Hmarked].
  apply (visit_all_order (build_topo fuel h) (λ g, reach h g v) (_prev n))
    in Hall as (_ & Hord2 & Hgray2);
    [|by apply build_topo_marks| |done..].
  2:{ intros c st st1 Hc Hrun Hp. apply (IH c st st1 Hrun).
      eapply dfs_pre_weaken; [|done].
      intros g Hg. eapply rtc_r; [exact Hg|]. by apply Hpar. }
  simpl in *. apply parents_before_snoc; [done|].
  intros p Hp.
  destruct (decide (p ∈ topo2)) as [|Hnot]; [done|].
  exfalso. apply (Hdag v p Hp).
  unfold parents in Hp. rewrite Hn in Hp.
  by apply Hgray2; [apply Hmarked|].
Qed.

Lemma topo_order_spec self topo :
  topo_order h self = Some topo →
  NoDup topo ∧ (∀ x, x ∈ topo ↔ reach h self x) ∧ parents_before h topo.
Proof.
  intros Hrun. destruct (topo_order_reach h self topo Hrun) as [Hnd Hreach].
  split; [done|]. split; [done|].
  unfold topo_order in Hrun.
  destruct (build_topo _ _ _ _) as [[vis topo']|] eqn:Hb; [|done].
  injection Hrun as ->.
  apply build_topo_order in Hb; [done|].
  split; [by inversion 1|]. split; [|by inversion 1].
  intros i x Hi. simpl in Hi. by rewrite lookup_nil in Hi.
Qed.

End Order.

(** ** Graphs built through the constructors *)

Lemma wf_nil : wf [].
Proof. split; intros i n; rewrite lookup_nil; done. Qed.

Lemma wf_rule_targets i n p :
  wf_rule i n → p ∈ rule_targets (_backward n) → p ∈ _prev n.
Proof.
  unfold wf_rule. destruct (_backward n); simpl.
  - intros _ Hp. by inversion Hp.
  - by intros [_ ->].
  - by intros [_ ->].
  - by intros [_ ->].
  - by intros [_ ->].
  - by intros (_ & -> & _).
Qed.

Lemma wf_rule_ptrs i n p :
  wf_rule i n → p ∈ rule_ptrs (_backward n) → p = i ∨ p ∈ _prev n.
Proof.
  unfold wf_rule. destruct (_backward n); simpl.
  - intros _ Hp. by inversion Hp.
  - intros [-> ->]. rewrite !elem_of_cons. tauto.
  - intros [-> ->]. rewrite !elem_of_cons. tauto.
  - intros [-> ->]. rewrite !elem_of_cons. tauto.
  - intros [-> ->]. rewrite !elem_of_cons. tauto.
  - intros (-> & -> & _). rewrite !elem_of_cons. tauto.
Qed.

Lemma wf_closed h : wf h → closed h.
Proof.
  intros [Hacyc Hrule] i n Hn. split.
  - intros p Hp. by eapply acyclic_in_range.
  - intros p Hp. destruct (wf_rule_ptrs i n p (Hrule i n Hn) Hp) as [->|Hp'].
    + by eapply lookup_lt_Some.
    + by eapply acyclic_in_range.
Qed.

Lemma wf_snoc h n :
  wf h → (∀ p, p ∈ _prev n → p < length h) → wf_rule (length h) n →
  wf (h ++ [n]).
Proof.
  intros [Hacyc Hrule] Hprev Hn. split.
  - intros i m p Hi Hp. apply lookup_app_Some in Hi as [Hi|[Hlen Hi]].
    + by eapply Hacyc.
    + apply list_lookup_singleton_Some in Hi as [Hi ->].
      apply Hprev in Hp. lia.
  - intros i m Hi. apply lookup_app_Some in Hi as [Hi|[Hlen Hi]].
    + by apply Hrule.
    + apply list_lookup_singleton_Some in Hi as [Hi ->].
      by replace i with (length h) by lia.
Qed.

Lemma wf_shape h h' : shape h' = shape h → wf h → wf h'.
Proof.
  intros E [Hacyc Hrule]. symmetry in E. split.
  - intros i n' p Hn' Hp.
    destruct (shape_eq_lookup _ _ _ _ E Hn') as (n & Hn & Hs).
    apply (Hacyc i n p Hn). apply (f_equal _prev) in Hs. simpl in Hs. congruence.
  - intros i n' Hn'.
    destruct (shape_eq_lookup _ _ _ _ E Hn') as (n & Hn & Hs).
    specialize (Hrule i n Hn). unfold wf_rule in *.
    pose proof (f_equal _backward Hs) as Hb.
    pose proof (f_equal _prev Hs) as Hp.
    pose proof (f_equal data Hs) as Hd. simpl in *.
    rewrite <- Hb, <- Hp, <- Hd. done.
Qed.

Lemma reach_le h x y : acyclic h → reach h x y → y ≤ x.
Proof.
  intros Hacyc Hr. induction Hr as [|x p y Hp _ IH]; [done|].
  unfold parents in Hp. destruct (h !! x) as [n|] eqn:Hn; [|by inversion Hp].
  pose proof (Hacyc _ _ _ Hn Hp). lia.
Qed.

Lemma acyclic_dag h : acyclic h → dag h.
Proof.
  intros Hacyc x p Hp Hreach. apply (reach_le h p x Hacyc) in Hreach.
  unfold parents in Hp. destruct (h !! x) as [n|] eqn:Hn; [|by inversion Hp].
  pose proof (Hacyc _ _ _ Hn Hp). lia.
Qed.

Lemma install_eq h v r :
  set_backward (length h) r (h ++ [v]) = Some (tt, h ++ [with_backward v r]).
Proof.
  unfold set_backward. rewrite list_lookup_middle by done.
  rewrite insert_app_r_alt by done. by rewrite Nat.sub_diag.
Qed.

(** Running a builder step by step. *)
Ltac builder_Some :=
  cbv [bind get_data deref ret make_shared];
  repeat match goal with
  | |- context [?h !! ?p] =>
      lazymatch h with
      | _ ++ _ => fail
      | _ => let a := fresh "a" in destruct (h !! p) as [a|] eqn:?
      end
  end;
  rewrite ?install_eq; simpl;
  (split;
   [ intros; simplify_eq; eauto
   | intros; repeat match goal with H : ∃ _, _ |- _ => destruct H end;
     repeat match goal with H : _ ∧ _ |- _ => destruct H end;
     simplify_eq; done ]).

Section BuilderFacts.
Context {libm : Libm}.

Lemma add_Some self other h res :
  add self other h = Some res ↔
  ∃ a b, h !! self = Some a ∧ h !! other = Some b ∧
    res = (length h,
           h ++ [mkValue (data a + data b) 0 (RAdd self other (length h))
                   [self; other] "+" ""]).
Proof.
  unfold add. builder_Some.
Qed.

Lemma mul_Some self other h res :
  mul self other h = Some res ↔
  ∃ a b, h !! self = Some a ∧ h !! other = Some b ∧
    res = (length h,
           h ++ [mkValue (data a * data b) 0 (RMul self other (length h))
                   [self; other] "*" ""]).
Proof.
  unfold mul. builder_Some.
Qed.

Lemma pow_Some self exponent h res :
  pow self exponent h = Some res ↔
  ∃ a, h !! self = Some a ∧
    res = (length h,
           h ++ [mkValue (c_pow (data a) exponent) 0
                   (RPow self exponent (length h)) [self]
                   (String.append "**" (to_string exponent)) ""]).
Proof.
  unfold pow. builder_Some.
Qed.

Lemma exp_Some self h res :
  exp self h = Some res ↔
  ∃ a, h !! self = Some a ∧
    res = (length h,
           h ++ [mkValue (c_exp (data a)) 0 (RExp self (length h)) [self]
                   "exp" ""]).
Proof.
  unfold exp. builder_Some.
Qed.

Lemma tanh_Some self h res :
  tanh self h = Some res ↔
  ∃ a, h !! self = Some a ∧
    res = (length h,
           h ++ [mkValue (c_tanh (data a)) 0
                   (RTanh self (c_tanh (data a)) (length h)) [self]
                   "tanh" ""]).
Proof.
  unfold tanh. builder_Some.
Qed.

End BuilderFacts.

(** ** The public operations *)

Lemma grows_bind (m : M ptr) (k : ptr → M ptr) :
  grows m → (∀ a, grows (k a)) → grows (bind m k).
Proof.
  intros Hm Hk h out h' (a & h1 & Hrun1 & Hrun2)%bind_Some.
  destruct (Hm _ _ _ Hrun1) as ([f1 ->] & _ & Hwf1).
  destruct (Hk _ _ _ _ Hrun2) as ([f2 ->] & Hout & Hwf2).
  split; [|split]; [|done|by auto].
  exists (f1 ++ f2). by rewrite app_assoc.
Qed.

Lemma grows_snoc h n :
  (∀ p, p ∈ _prev n → p < length h) → wf_rule (length h) n →
  (∃ fresh, h ++ [n] = h ++ fresh) ∧ length h < length (h ++ [n]) ∧
  (wf h → wf (h ++ [n])).
Proof.
  intros Hprev Hrule. split; [by eexists|]. split.
  - rewrite length_app. simpl. lia.
  - intros Hwf. by apply wf_snoc.
Qed.

Lemma grows_make_shared s : grows (make_shared s [] "" "").
Proof.
  intros h out h' [= <- <-]. apply grows_snoc; [by inversion 1|done].
Qed.

Section Grows.
Context {libm : Libm}.

Ltac operand_in_range :=
  intros ?; simpl; rewrite ?elem_of_cons; intros;
  repeat match goal with
  | H : _ ∨ _ |- _ => destruct H
  | H : _ ∈ [] |- _ => inversion H
  | H : _ !! _ = Some _ |- _ => apply lookup_lt_Some in H
  end; subst; done.

Lemma grows_add x y : grows (add x y).
Proof.
  intros h out h' (a & b & Ha & Hb & [= -> ->])%add_Some.
  apply grows_snoc; [operand_in_range|done].
Qed.

Lemma grows_mul x y : grows (mul x y).
Proof.
  intros h out h' (a & b & Ha & Hb & [= -> ->])%mul_Some.
  apply grows_snoc; [operand_in_range|done].
Qed.

Lemma grows_pow x k : grows (pow x k).
Proof.
  intros h out h' (a & Ha & [= -> ->])%pow_Some.
  apply grows_snoc; [operand_in_range|done].
Qed.

Lemma grows_exp x : grows (exp x).
Proof.
  intros h out h' (a & Ha & [= -> ->])%exp_Some.
  apply grows_snoc; [operand_in_range|done].
Qed.

Lemma grows_tanh x : grows (tanh x).
Proof.
  intros h out h' (a & Ha & [= -> ->])%tanh_Some.
  apply grows_snoc; [operand_in_range|done].
Qed.

Lemma grows_build c : grows (build c).
Proof.
  destruct c; simpl;
    unfold add_d, d_add, mul_d, d_mul, div, div_d, d_div, neg, sub, sub_d,
      d_sub, mul_d;
    repeat (apply grows_bind; [|intros ?]);
    first [ apply grows_make_shared | apply grows_add | apply grows_mul
          | apply grows_pow | apply grows_exp | apply grows_tanh ].
Qed.

End Grows.

(** ** Replaying the closures *)

Section Replay.
Context {libm : Libm}.

Lemma shape_eq_rule_of h h' v : shape h' = shape h → rule_of h' v = rule_of h v.
Proof.
  intros E. unfold rule_of. destruct (h !! v) as [n|] eqn:Hn.
  - destruct (shape_eq_lookup _ _ _ _ E Hn) as (n' & -> & Hs).
    by apply (f_equal _backward) in Hs.
  - apply lookup_ge_None in Hn. rewrite <- (shape_eq_length _ _ E) in Hn.
    apply lookup_ge_None in Hn. by rewrite Hn.
Qed.

Lemma closed_shape h h' : shape h' = shape h → closed h → closed h'.
Proof.
  intros E Hc i n' Hn'. symmetry in E.
  destruct (shape_eq_lookup _ _ _ _ E Hn') as (n & Hn & Hs).
  destruct (Hc i n Hn) as [Hp Hr].
  rewrite <- (shape_eq_length _ _ E).
  pose proof (f_equal _backward Hs) as Hb.
  pose proof (f_equal _prev Hs) as Hpv. simpl in *.
  rewrite <- Hb, <- Hpv. done.
Qed.

Lemma set_grad_frame p g h h' :
  set_grad p g h = Some (tt, h') →
  shape h' = shape h ∧ (∀ x, x ≠ p → h' !! x = h !! x) ∧
  grad_at h' p = Some g.
Proof.
  intros Hs. minv. split; [by apply shape_with_grad|]. split.
  - intros y Hy. by rewrite list_lookup_insert_ne.
  - unfold grad_at. rewrite list_lookup_insert_eq by by eapply lookup_lt_Some.
    done.
Qed.

Lemma get_grad_total p h :
  p < length h → ∃ g, get_grad p h = Some (g, h).
Proof.
  intros [n Hn]%lookup_lt_is_Some_2. exists (grad n).
  apply get_grad_Some. eauto.
Qed.

Lemma get_data_total p h :
  p < length h → ∃ g, get_data p h = Some (g, h).
Proof.
  intros [n Hn]%lookup_lt_is_Some_2. exists (data n).
  apply get_data_Some. eauto.
Qed.

Lemma add_grad_total p a h :
  p < length h → ∃ h', add_grad p a h = Some (tt, h') ∧ length h' = length h.
Proof.
  intros [n Hn]%lookup_lt_is_Some_2. eexists. split.
  - apply add_grad_Some. eauto.
  - apply length_insert.
Qed.

Lemma run_rule_total r h :
  (∀ p, p ∈ rule_ptrs r → p < length h) → ∃ h', run_rule r h = Some (tt, h').
Proof.
  intros Hr.
  destruct r as [|self other out|self other out|self exponent out|self out
                |self d out];
    simpl in *; [by eexists|..]; repeat setoid_rewrite elem_of_cons in Hr.
  - destruct (get_grad_total out h) as [g Hg]; [auto|].
    destruct (add_grad_total self (1 * g)%float h) as (h1 & H1 & L1); [auto|].
    destruct (get_grad_total out h1) as [g' Hg']; [rewrite L1; auto|].
    destruct (add_grad_total other (1 * g')%float h1) as (h2 & H2 & L2);
      [rewrite L1; auto|].
    exists h2. unfold bind. by rewrite Hg, H1, Hg', H2.
  - destruct (get_data_total other h) as [b Hb]; [auto|].
    destruct (get_grad_total out h) as [g Hg]; [auto|].
    destruct (add_grad_total self (b * g)%float h) as (h1 & H1 & L1); [auto|].
    destruct (get_data_total self h1) as [a Ha]; [rewrite L1; auto|].
    destruct (get_grad_total out h1) as [g' Hg']; [rewrite L1; auto|].
    destruct (add_grad_total other (a * g')%float h1) as (h2 & H2 & L2);
      [rewrite L1; auto|].
    exists h2. unfold bind. by rewrite Hb, Hg, H1, Ha, Hg', H2.
  - destruct (get_data_total self h) as [a Ha]; [auto|].
    destruct (get_grad_total out h) as [g Hg]; [auto|].
    destruct (add_grad_total self
                (exponent * c_pow a (exponent - 1) * g)%float h)
      as (h1 & H1 & L1); [auto|].
    exists h1. unfold bind. by rewrite Ha, Hg, H1.
  - destruct (get_data_total out h) as [v Hv]; [auto|].
    destruct (get_grad_total out h) as [g Hg]; [auto|].
    destruct (add_grad_total self (v * g)%float h) as (h1 & H1 & L1); [auto|].
    exists h1. unfold bind. by rewrite Hv, Hg, H1.
  - destruct (get_grad_total out h) as [g Hg]; [auto|].
    destruct (add_grad_total self ((1 - d * d) * g)%float h)
      as (h1 & H1 & L1); [auto|].
    exists h1. unfold bind. by rewrite Hg, H1.
Qed.

Lemma replay_cons_Some it rest h h' :
  replay (it :: rest) h = Some (tt, h') ↔
  ∃ n h1, h !! it = Some n ∧ run_rule (_backward n) h = Some (tt, h1) ∧
    replay rest h1 = Some (tt, h').
Proof.
  simpl. unfold bind, deref. destruct (h !! it) as [n|].
  - destruct (run_rule (_backward n) h) as [[[] h1]|] eqn:Hrule; split.
    + intros Hr. by exists n, h1.
    + intros (n0 & h2 & [= <-] & Hrule' & Hr). congruence.
    + done.
    + intros (n0 & h2 & [= <-] & Hrule' & _). congruence.
  - split; [done|]. by intros (? & ? & ? & _).
Qed.

Lemma replay_frame order : ∀ h h',
  replay order h = Some (tt, h') →
  shape h' = shape h ∧
  ∀ x, (∀ v, v ∈ order → x ∉ rule_targets (rule_of h v)) → h' !! x = h !! x.
Proof.
  induction order as [|it rest IH]; intros h h' Hrun; simpl in Hrun.
  - apply ret_Some in Hrun as [= <-]. done.
  - apply replay_cons_Some in Hrun as (n & h1 & Hn & Hrule & Hrest).
    apply run_rule_frame in Hrule as [E1 F1].
    apply IH in Hrest as [E2 F2]. split; [congruence|].
    intros y Hy. rewrite F2, F1; [done| |].
    + specialize (Hy it). unfold rule_of in Hy. rewrite Hn in Hy.
      apply Hy. by left.
    + intros v Hv. rewrite (shape_eq_rule_of _ _ _ E1). apply Hy. by right.
Qed.

Lemma replay_total order : ∀ h,
  closed h → (∀ v, v ∈ order → v < length h) →
  ∃ h', replay order h = Some (tt, h').
Proof.
  induction order as [|it rest IH]; intros h Hc Hrange; simpl.
  - by eexists.
  - destruct (lookup_lt_is_Some_2 h it) as [n Hn]; [apply Hrange; by left|].
    destruct (run_rule_total (_backward n) h) as [h1 H1]; [by apply (Hc it n)|].
    pose proof (run_rule_frame _ _ _ H1) as [E1 _].
    destruct (IH h1) as [h2 H2].
    + by eapply closed_shape.
    + intros v Hv. rewrite (shape_eq_length _ _ E1). apply Hrange. by right.
    + exists h2. unfold bind, deref. by rewrite Hn, H1.
Qed.

End Replay.

(** ** What a backward pass adds to each accumulator *)

Lemma credit_app x l1 l2 g : credit x (l1 ++ l2) g = credit x l2 (credit x l1 g).
Proof. apply fold_left_app. Qed.

Lemma with_grad_with_grad n a b : with_grad (with_grad n a) b = with_grad n b.
Proof. done. Qed.

Lemma with_grad_id n : with_grad n (grad n) = n.
Proof. by destruct n. Qed.

Lemma wf_self_free h i n : wf h → h !! i = Some n → self_free (_backward n).
Proof.
  intros [Hacyc Hrule] Hn. specialize (Hrule i n Hn).
  pose proof (λ p, Hacyc i n p Hn) as Hlt. unfold wf_rule in Hrule.
  destruct (_backward n); simpl; [done|..].
  - destruct Hrule as [-> Hp]. rewrite Hp in Hlt.
    split; intros ->; eapply Nat.lt_irrefl, Hlt; rewrite !elem_of_cons; auto.
  - destruct Hrule as [-> Hp]. rewrite Hp in Hlt.
    split; intros ->; eapply Nat.lt_irrefl, Hlt; rewrite !elem_of_cons; auto.
  - destruct Hrule as [-> Hp]. rewrite Hp in Hlt.
    intros ->; eapply Nat.lt_irrefl, Hlt; rewrite !elem_of_cons; auto.
  - destruct Hrule as [-> Hp]. rewrite Hp in Hlt.
    intros ->; eapply Nat.lt_irrefl, Hlt; rewrite !elem_of_cons; auto.
  - destruct Hrule as (-> & Hp & _). rewrite Hp in Hlt.
    intros ->; eapply Nat.lt_irrefl, Hlt; rewrite !elem_of_cons; auto.
Qed.

Lemma wf_targets h v p :
  wf h → p ∈ rule_targets (rule_of h v) → p ∈ parents h v ∧ p < v.
Proof.
  intros [Hacyc Hrule]. unfold rule_of, parents.
  destruct (h !! v) as [n|] eqn:Hn; [|by inversion 1].
  intros Hp. apply (wf_rule_targets v n p (Hrule v n Hn)) in Hp.
  split; [done|]. by eapply Hacyc.
Qed.

Section Credit.
Context {libm : Libm}.

Ltac lookup_cases :=
  repeat match goal with
  | H : context [<[?i := _]> _ !! ?i] |- _ =>
      rewrite list_lookup_insert_eq in H
        by (rewrite ?length_insert; eauto using lookup_lt_Some)
  | |- context [<[?i := _]> _ !! ?i] =>
      rewrite list_lookup_insert_eq
        by (rewrite ?length_insert; eauto using lookup_lt_Some)
  | H : context [<[?i := _]> _ !! ?j] |- _ =>
      destruct (decide (i = j)) as [->|?];
      [ rewrite list_lookup_insert_eq in H
          by (rewrite ?length_insert; eauto using lookup_lt_Some)
      | rewrite list_lookup_insert_ne in H by done ]
  | |- context [<[?i := _]> _ !! ?j] =>
      destruct (decide (i = j)) as [->|?];
      [ rewrite list_lookup_insert_eq
          by (rewrite ?length_insert; eauto using lookup_lt_Some)
      | rewrite list_lookup_insert_ne by done ]
  end.

Ltac credit_cases :=
  lookup_cases; simplify_eq; unfold credit; simpl;
  repeat (case_decide; simplify_eq; simpl);
  rewrite ?with_grad_with_grad, ?with_grad_id; try done.

Lemma run_rule_credit r h h' :
  self_free r → run_rule r h = Some (tt, h') →
  ∃ ds, rule_deposits r h = Some ds ∧
    ds.*1 = rule_targets r ∧
    ∀ x nx, h !! x = Some nx →
      h' !! x = Some (with_grad nx (credit x ds (grad nx))).
Proof.
  destruct r; simpl; intros Hfree Hrun; minv; lookup_cases; simplify_eq;
    try (by destruct Hfree);
    unfold grad_at, data_at;
    repeat match goal with
    | Hl : ?h !! ?p = Some _ |- context [?h !! ?p] => rewrite Hl
    end; simpl;
    (eexists; split; [done|]; split; [done|]);
    intros y ny Hy; credit_cases.
Qed.

End Credit.

Section Backward.
Context {libm : Libm}.

Lemma replay_credit order : ∀ h h',
  wf h → replay order h = Some (tt, h') →
  ∃ log, replay_log order h = Some log ∧
    log.*1 = flat_map (λ v, rule_targets (rule_of h v)) order ∧
    ∀ x nx, h !! x = Some nx →
      h' !! x = Some (with_grad nx (credit x log (grad nx))).
Proof.
  induction order as [|it rest IH]; intros h h' Hwf Hrun.
  - apply ret_Some in Hrun as [= <-]. exists []. split; [done|]. split; [done|].
    intros x nx ->. by rewrite with_grad_id.
  - apply replay_cons_Some in Hrun as (n & h1 & Hn & Hrule & H2).
    pose proof (run_rule_frame _ _ _ Hrule) as [E1 _].
    destruct (run_rule_credit _ _ _ (wf_self_free _ _ _ Hwf Hn) Hrule)
      as (ds & Hds & Hfst & Hcr).
    destruct (IH h1 h' (wf_shape _ _ E1 Hwf) H2) as (log & Hlog & Hlfst & Hlcr).
    exists (ds ++ log). split; [|split].
    + simpl. rewrite Hn. simpl. rewrite Hds. simpl. rewrite Hrule. simpl.
      rewrite Hlog. done.
    + rewrite fmap_app, Hfst, Hlfst. simpl. f_equal.
      * unfold rule_of. by rewrite Hn.
      * apply flat_map_ext. intros v. by rewrite (shape_eq_rule_of _ _ _ E1).
    + intros x nx Hx. rewrite (Hlcr _ _ (Hcr _ _ Hx)).
      by rewrite credit_app.
Qed.

Lemma backward_Some self h h' :
  backward self h = Some (tt, h') ↔
  ∃ topo h1, topo_order h self = Some topo ∧
    set_grad self 1 h = Some (tt, h1) ∧
    replay (reverse topo) h1 = Some (tt, h').
Proof.
  unfold backward. destruct (topo_order h self) as [topo|];
    [|split; [done|by intros (? & ? & ? & _)]].
  rewrite bind_Some. split.
  - intros ([] & h1 & Hs & Hr). eauto.
  - intros (topo' & h1 & [= <-] & Hs & Hr). eauto.
Qed.

(** The object [backward] is called on is the last of the order. *)
Lemma topo_order_last h self topo :
  topo_order h self = Some topo → ∃ t, topo = t ++ [self].
Proof.
  unfold topo_order. simpl.
  destruct (h !! self) as [n|]; [|done].
  destruct (visit_all _ _ _) as [[vis t]|]; [|done].
  intros [= <-]. by eexists.
Qed.

Lemma topo_order_in_range h self topo v :
  acyclic h → self < length h → topo_order h self = Some topo →
  v ∈ topo → v ≤ self ∧ reach h self v.
Proof.
  intros Hacyc Hself Ht Hv.
  apply (topo_order_spec h (acyclic_dag h Hacyc)) in Ht as (_ & Hreach & _).
  apply Hreach in Hv. split; [|done]. by eapply reach_le.
Qed.

(** The closures of objects at or below [b] leave the objects from [b]
    upwards alone. *)
Lemma replay_below order b h h' :
  wf h → (∀ v, v ∈ order → v ≤ b) → replay order h = Some (tt, h') →
  ∀ x, b ≤ x → h' !! x = h !! x.
Proof.
  intros Hwf Hle Hrun x Hx.
  apply replay_frame in Hrun as [_ Hframe]. apply Hframe.
  intros v Hv Hin. apply (wf_targets h v x Hwf) in Hin as [_ Hlt].
  specialize (Hle v Hv). lia.
Qed.

Lemma build_topo_range h fuel : ∀ v st st',
  build_topo fuel h v st = Some st' →
  (∀ x, x ∈ st.2 → x < length h) → ∀ x, x ∈ st'.2 → x < length h.
Proof.
  induction fuel as [|fuel IH]; intros v [vis topo] st' Hrun Hin; [done|].
  simpl in Hrun. destruct (seen v vis); [by injection Hrun as <-|].
  destruct (h !! v) as [n|] eqn:Hn; [|done].
  destruct (visit_all _ _ _) as [[vis2 topo2]|] eqn:Hall; [|done].
  injection Hrun as <-. simpl.
  assert (∀ x, x ∈ topo2 → x < length h) as Hin2.
  { clear Hn. revert Hall Hin. generalize (vis ++ [v]). generalize topo.
    induction (_prev n) as [|c cs IHc]; intros topo0 vis0 Hall Hin0; simpl in *.
    - by injection Hall as <- <-.
    - destruct (build_topo fuel h c (vis0, topo0)) as [[vis1 topo1]|] eqn:Hc;
        [|done].
      eapply IHc; [done|]. by apply (IH _ _ _ Hc). }
  intros x [Hx| ->%list_elem_of_singleton]%elem_of_app; [by apply Hin2|].
  by eapply lookup_lt_Some.
Qed.

Lemma backward_total h self :
  closed h → self < length h → ∃ h', backward self h = Some (tt, h').
Proof.
  intros Hc Hself.
  destruct (topo_order_total h) with (self := self) as [topo Ht]; [|done|].
  { intros i n p Hn Hp. by apply (proj1 (Hc i n Hn)). }
  destruct (lookup_lt_is_Some_2 h self Hself) as [n Hn].
  assert (set_grad self 1 h = Some (tt, <[self := with_grad n 1]> h)) as Hs.
  { apply set_grad_Some. eauto. }
  pose proof (set_grad_frame _ _ _ _ Hs) as (E1 & _ & _).
  destruct (replay_total (reverse topo) (<[self := with_grad n 1]> h)) as [h' Hr].
  - by eapply closed_shape.
  - intros v Hv%in_reverse. rewrite length_insert.
    unfold topo_order in Ht.
    destruct (build_topo _ _ _ _) as [[vis topo']|] eqn:Hb; [|done].
    injection Ht as ->.
    by apply (build_topo_range _ _ _ _ _ Hb); [inversion 1|].
  - exists h'. apply backward_Some. eauto.
Qed.

Lemma run_calls_wf cs : ∀ h h', wf h → run_calls cs h = Some h' → wf h'.
Proof.
  induction cs as [|c cs IH]; intros h h' Hwf Hrun; simpl in Hrun.
  - by injection Hrun as <-.
  - destruct (build c h) as [[out h1]|] eqn:Hb; [|done].
    apply (IH h1); [|done]. by apply (grows_build c h out h1 Hb).
Qed.

Lemma backward_shape self h h' :
  backward self h = Some (tt, h') → shape h' = shape h.
Proof.
  intros (topo & h1 & _ & Hs & Hr)%backward_Some.
  apply set_grad_frame in Hs as (E1 & _).
  apply replay_frame in Hr as [E2 _]. congruence.
Qed.

(** Well-formedness is kept by every step of a client, so it holds of
    every heap a client can reach from the empty one. *)
Lemma api_step_wf h h' : api_step h h' → wf h → wf h'.
Proof.
  intros [c h0 out h1 Hb|self h0 h1 Hb] Hwf.
  - by apply (grows_build c h0 out h1 Hb).
  - eapply wf_shape; [|done]. by eapply backward_shape.
Qed.

Lemma api_reachable_wf h : rtc api_step [] h → wf h.
Proof.
  revert h. apply rtc_ind_r.
  - apply wf_nil.
  - intros h1 h2 _ Hstep Hwf. by eapply api_step_wf.
Qed.

End Backward.

(** ** Facts about the example graphs *)

Lemma diamond_built : run_calls (libm := sample_libm) diamond_calls [] = Some diamond.
Proof. reflexivity. Qed.

Lemma wf_diamond : wf diamond.
Proof. exact (run_calls_wf diamond_calls [] diamond wf_nil diamond_built). Qed.


Lemma wf_zero_leaf : wf zero_leaf.
Proof.
  exact (run_calls_wf (libm := sample_libm) [Constant 0.0%float] [] zero_leaf
           wf_nil eq_refl).
Qed.

Example diamond_backward :
  backward (libm := sample_libm) 4 diamond = Some (tt, diamond_after).
Proof. reflexivity. Qed.

(** ** What a backward pass leaves alone *)

Section Frames.
Context {libm : Libm}.

Lemma build_prefix c h out h' p n :
  build c h = Some (out, h') → h !! p = Some n → h' !! p = Some n.
Proof.
  intros Hb Hn. destruct (grows_build c h out h' Hb) as ([fresh ->] & _).
  by apply lookup_app_l_Some.
Qed.

Lemma api_steps_skel h h' :
  rtc api_step h h' →
  ∀ p n, h !! p = Some n → ∃ n', h' !! p = Some n' ∧ skel n' = skel n.
Proof.
  induction 1 as [h|h h1 h2 Hstep _ IH]; intros p n Hn; [by eauto|].
  assert (∃ n1, h1 !! p = Some n1 ∧ skel n1 = skel n) as (n1 & Hn1 & E1).
  { destruct Hstep as [c h0 out h1 Hb|self h0 h1 Hb].
    - exists n. split; [|done]. by eapply build_prefix.
    - by eapply shape_eq_lookup; [eapply backward_shape|]. }
  destruct (IH p n1 Hn1) as (n2 & Hn2 & E2). exists n2. split; [done|].
  congruence.
Qed.

(** The objects from which [self] cannot be reached are left alone. *)
Lemma backward_unreachable h self h' x :
  wf h → backward self h = Some (tt, h') → ¬ reach h self x →
  h' !! x = h !! x.
Proof.
  intros Hwf (topo & h1 & Ht & Hs & Hr)%backward_Some Hx.
  pose proof (set_grad_frame _ _ _ _ Hs) as (E1 & F1 & _).
  apply replay_frame in Hr as [_ F2].
  rewrite F2, F1; [done| |].
  - intros ->. apply Hx. apply rtc_refl.
  - intros v Hv%in_reverse Hin. rewrite (shape_eq_rule_of _ _ _ E1) in Hin.
    apply (wf_targets h v x Hwf) in Hin as [Hp _].
    apply (topo_order_spec h (acyclic_dag h (proj1 Hwf))) in Ht as (_ & Hreach & _).
    apply Hx. eapply rtc_r; [by apply Hreach|done].
Qed.

(** On a leaf, [backward] only seeds. *)
Lemma backward_leaf h self h' n :
  wf h → backward self h = Some (tt, h') →
  h !! self = Some n → _prev n = [] →
  h' = <[self := with_grad n 1]> h.
Proof.
  intros Hwf (topo & h1 & Ht & Hs & Hr)%backward_Some Hn Hp.
  assert (topo = [self]) as ->.
  { unfold topo_order in Ht. simpl in Ht. rewrite Hn, Hp in Ht. simpl in Ht.
    by injection Ht as <-. }
  assert (_backward n = RNoop) as Hnoop.
  { destruct Hwf as [_ Hrule]. specialize (Hrule self n Hn).
    unfold wf_rule in Hrule. rewrite Hp in Hrule.
    destruct (_backward n); [done|..]; intuition discriminate. }
  apply set_grad_Some in Hs as (n0 & Hn0 & [= ->]).
  assert (n0 = n) as -> by congruence.
  rewrite reverse_singleton in Hr.
  apply replay_cons_Some in Hr as (n1 & h2 & Hn1 & Hrule & Hrest).
  rewrite list_lookup_insert_eq in Hn1 by by eapply lookup_lt_Some.
  injection Hn1 as <-. simpl in Hrule. rewrite Hnoop in Hrule.
  apply ret_Some in Hrule as [= <-]. by apply ret_Some in Hrest as [= <-].
Qed.

(** After the seeding and the closure of [self], the rest of the replay
    only writes strictly below the parents of [self]. *)
Lemma backward_head h self h' :
  wf h → backward self h = Some (tt, h') →
  ∃ h1 h2,
    set_grad self 1 h = Some (tt, h1) ∧
    run_rule (rule_of h self) h1 = Some (tt, h2) ∧
    ∀ x, (∀ p, p ∈ parents h self → p ≤ x) → h' !! x = h2 !! x.
Proof.
  intros Hwf Hb. pose proof Hb as (topo & h1 & Ht & Hs & Hr)%backward_Some.
  pose proof (set_grad_frame _ _ _ _ Hs) as (E1 & _).
  destruct (topo_order_last _ _ _ Ht) as [t ->].
  rewrite reverse_snoc in Hr.
  apply replay_cons_Some in Hr as (n1 & h2 & Hn1 & Hrule & Hrest).
  exists h1, h2. split; [done|]. split.
  { rewrite <- (shape_eq_rule_of _ _ _ E1). unfold rule_of. by rewrite Hn1. }
  intros y Hy.
  pose proof (run_rule_frame _ _ _ Hrule) as [E2 _].
  assert (wf h2) as Hwf2.
  { eapply wf_shape; [|done]. congruence. }
  apply (replay_below (reverse t) y h2 h' Hwf2); [|done..].
  intros v Hv%in_reverse.
  apply (topo_order_spec h (acyclic_dag h (proj1 Hwf))) in Ht as (Hnd & Hreach & _).
  assert (reach h self v) as Hrv.
  { apply Hreach, elem_of_app. by left. }
  assert (v ≠ self) as Hne.
  { intros ->. apply NoDup_app in Hnd as (_ & Hdisj & _).
    apply (Hdisj self Hv). by left. }
  apply rtc_inv in Hrv as [->|(p & Hp & Hpv)]; [done|].
  apply (reach_le h p v (proj1 Hwf)) in Hpv. specialize (Hy p Hp). lia.
Qed.

End Frames.

Section Accumulation.
Context {libm : Libm}.

(** A pass over a well-formed graph: the order, the seeded state, the
    deposits, the final state, and how they are related. *)
Lemma backward_credit h self :
  wf h → self < length h →
  ∃ topo h1 log h',
    topo_order h self = Some topo ∧
    set_grad self 1 h = Some (tt, h1) ∧
    replay_log (reverse topo) h1 = Some log ∧
    backward self h = Some (tt, h') ∧
    log.*1 = flat_map (λ v, rule_targets (rule_of h v)) (reverse topo) ∧
    (∀ x n1, h1 !! x = Some n1 →
       h' !! x = Some (with_grad n1 (credit x log (grad n1)))) ∧
    h' !! self = h1 !! self.
Proof.
  intros Hwf Hself.
  destruct (backward_total h self (wf_closed h Hwf) Hself) as [h' Hb].
  pose proof Hb as (topo & h1 & Ht & Hs & Hr)%backward_Some.
  pose proof (set_grad_frame _ _ _ _ Hs) as (E1 & _).
  pose proof (wf_shape _ _ E1 Hwf) as Hwf1.
  destruct (replay_credit _ _ _ Hwf1 Hr) as (log & Hlog & Hfst & Hcr).
  exists topo, h1, log, h'. repeat (split; [done|]). split; [|split; [done|]].
  - rewrite Hfst. apply flat_map_ext. intros v.
    by rewrite (shape_eq_rule_of _ _ _ E1).
  - apply (replay_below (reverse topo) self h1 h' Hwf1); [|done..].
    intros v Hv%in_reverse.
    by apply (topo_order_in_range h self topo v (proj1 Hwf) Hself Ht).
Qed.

(** The object [y] just built from the operand [x] alone: after
    [y->backward()], [x] holds what the closure of [y] left there. *)
Lemma backward_consumer h y h' x :
  wf h → backward y h = Some (tt, h') →
  (∀ p, p ∈ parents h y → p = x) →
  ∃ h1 h2,
    set_grad y 1 h = Some (tt, h1) ∧
    run_rule (rule_of h y) h1 = Some (tt, h2) ∧
    h' !! x = h2 !! x.
Proof.
  intros Hwf Hb Hp.
  destruct (backward_head h y h' Hwf Hb) as (h1 & h2 & Hs & Hr & Hframe).
  exists h1, h2. split; [done|]. split; [done|].
  apply Hframe. intros p ->%Hp. done.
Qed.

End Accumulation.

(** ** The local rules *)

Section LocalRules.
Context {libm : Libm}.

Ltac run_rule_now :=
  cbv [run_rule bind get_data get_grad add_grad set_grad deref ret];
  repeat match goal with
  | Hl : ?h !! ?p = Some _ |- context [?h !! ?p] => rewrite Hl
  end.

Lemma fresh_lookup h n h2 no :
  shape h2 = shape (h ++ [n]) → h2 !! length h = Some no → skel no = skel n.
Proof.
  intros E Hno. symmetry in E.
  destruct (shape_eq_lookup _ _ _ _ E Hno) as (n' & Hn' & Hs).
  rewrite list_lookup_middle in Hn' by done. by injection Hn' as <-.
Qed.

Lemma pow_rule x k h out h1 h2 n2 no :
  pow x k h = Some (out, h1) →
  shape h2 = shape h1 → h2 !! x = Some n2 → h2 !! out = Some no →
  ∃ h3, run_rule (rule_of h2 out) h2 = Some (tt, h3) ∧
    adds_to x (k * c_pow (data n2) (k - 1) * grad no) h2 h3.
Proof.
  intros (a & Ha & [= -> ->])%pow_Some E Hx Hout.
  pose proof (f_equal _backward (fresh_lookup _ _ _ _ E Hout)) as Hr.
  unfold rule_of. rewrite Hout. simpl in Hr. rewrite Hr.
  eexists. split; [run_rule_now; done|]. by exists n2.
Qed.

Lemma exp_rule x h out h1 h2 n2 no :
  exp x h = Some (out, h1) →
  shape h2 = shape h1 → h2 !! x = Some n2 → h2 !! out = Some no →
  ∃ h3, run_rule (rule_of h2 out) h2 = Some (tt, h3) ∧
    adds_to x (data no * grad no) h2 h3.
Proof.
  intros (a & Ha & [= -> ->])%exp_Some E Hx Hout.
  pose proof (f_equal _backward (fresh_lookup _ _ _ _ E Hout)) as Hr.
  unfold rule_of. rewrite Hout. simpl in Hr. rewrite Hr.
  eexists. split; [run_rule_now; done|]. by exists n2.
Qed.

Lemma tanh_rule x h out h1 h2 n2 no :
  tanh x h = Some (out, h1) →
  shape h2 = shape h1 → h2 !! x = Some n2 → h2 !! out = Some no →
  ∃ h3, run_rule (rule_of h2 out) h2 = Some (tt, h3) ∧
    adds_to x ((1 - data no * data no) * grad no) h2 h3.
Proof.
  intros (a & Ha & [= -> ->])%tanh_Some E Hx Hout.
  pose proof (f_equal _backward (fresh_lookup _ _ _ _ E Hout)) as Hr.
  pose proof (f_equal data (fresh_lookup _ _ _ _ E Hout)) as Hd.
  unfold rule_of. rewrite Hout. simpl in Hr, Hd. rewrite Hr, Hd.
  eexists. split; [run_rule_now; done|]. by exists n2.
Qed.

(** The closure of [x + x] adds twice to the one operand. *)
Lemma add_twice_rule x h out h1 h2 n2 no :
  add x x h = Some (out, h1) →
  shape h2 = shape h1 → h2 !! x = Some n2 → h2 !! out = Some no →
  ∃ h3, run_rule (rule_of h2 out) h2 = Some (tt, h3) ∧
    h3 !! x = Some (with_grad n2 (grad n2 + 1 * grad no + 1 * grad no)).
Proof.
  intros (a & b & Ha & _ & [= -> ->])%add_Some E Hx Hout.
  pose proof (f_equal _backward (fresh_lookup _ _ _ _ E Hout)) as Hr.
  unfold rule_of. rewrite Hout. simpl in Hr. rewrite Hr.
  assert (x ≠ length h) as Hne.
  { apply lookup_lt_Some in Ha. lia. }
  pose proof (lookup_lt_Some _ _ _ Hx) as Hlt.
  eexists. split.
  - run_rule_now. rewrite list_lookup_insert_ne by done. rewrite Hout.
    rewrite list_lookup_insert_eq by done. simpl.
    rewrite list_lookup_insert_eq by done. done.
  - rewrite list_lookup_insert_eq by by rewrite length_insert. done.
Qed.

(** A builder that made [y] out of the one operand [x], followed by
    [y->backward()]. *)
Lemma backward_fresh x nx h y ny h2 :
  wf h → h !! x = Some nx → y = length h →
  wf (h ++ [ny]) → _prev ny = [x] ∨ _prev ny = [x; x] →
  backward y (h ++ [ny]) = Some (tt, h2) →
  ∃ hs hr,
    shape hs = shape (h ++ [ny]) ∧
    hs !! x = Some nx ∧ hs !! y = Some (with_grad ny 1) ∧
    run_rule (rule_of hs y) hs = Some (tt, hr) ∧
    h2 !! x = hr !! x.
Proof.
  intros Hwf Hx -> Hwf1 Hprev Hb.
  pose proof (lookup_lt_Some _ _ _ Hx) as Hlt.
  destruct (backward_consumer (h ++ [ny]) (length h) h2 x Hwf1 Hb)
    as (hs & hr & Hs & Hr & Hframe).
  { unfold parents. rewrite list_lookup_middle by done.
    destruct Hprev as [-> | ->]; intros p; rewrite !elem_of_cons;
      intros; repeat match goal with
      | Hor : _ ∨ _ |- _ => destruct Hor
      | Hin : _ ∈ [] |- _ => inversion Hin
      end; done. }
  pose proof (set_grad_frame _ _ _ _ Hs) as (E & F & _).
  exists hs, hr. split; [done|]. split; [|split; [|split; [|done]]].
  - rewrite F by lia. by apply lookup_app_l_Some.
  - apply set_grad_Some in Hs as (n & Hn & [= ->]).
    rewrite list_lookup_middle in Hn by done. injection Hn as <-.
    apply list_lookup_insert_eq. rewrite length_app. simpl. lia.
  - by rewrite (shape_eq_rule_of _ _ _ E).
Qed.

End LocalRules.

Section Fixtures.
Context {libm : Libm}.

Lemma adds_to_grad x amount h h' nx :
  adds_to x amount h h' → h !! x = Some nx →
  grad_at h' x = Some (grad nx + amount)%float.
Proof.
  intros (n & Hn & ->) Hx. assert (n = nx) as -> by congruence.
  unfold grad_at. rewrite list_lookup_insert_eq by by eapply lookup_lt_Some.
  done.
Qed.

Lemma tanh_at_zero h x nx :
  wf h → h !! x = Some nx → data nx = 0%float → grad nx = 0%float →
  c_tanh 0 = 0%float →
  ∃ y h1 h2, tanh x h = Some (y, h1) ∧ backward y h1 = Some (tt, h2) ∧
    grad_at h2 x = Some 1%float.
Proof.
  intros Hwf Hx Hd Hg Hlibm.
  destruct (tanh x h) as [[y h1]|] eqn:Hop.
  2:{ exfalso. assert (is_Some (tanh x h)) as [? ?]; [|congruence].
      eexists. apply tanh_Some. eauto. }
  pose proof Hop as (a & Ha & [= Hy Hh1])%tanh_Some.
  assert (a = nx) as -> by congruence.
  destruct (grows_tanh x h y h1 Hop) as (_ & Hlt & Hwf1).
  specialize (Hwf1 Hwf).
  destruct (backward_total h1 y (wf_closed _ Hwf1) Hlt) as [h2 Hb].
  exists y, h1, h2. split; [done|]. split; [done|].
  rewrite Hh1 in Hb, Hwf1.
  destruct (backward_fresh x nx h y _ h2 Hwf Hx Hy Hwf1 (or_introl eq_refl) Hb)
    as (hs & hr & E & Hsx & Hsy & Hr & Hframe).
  rewrite <- Hh1 in E.
  destruct (tanh_rule x h y h1 hs nx _ Hop E Hsx Hsy) as (h3 & Hr3 & Hadd).
  assert (h3 = hr) as -> by congruence.
  pose proof (adds_to_grad _ _ _ _ _ Hadd Hsx) as Hgx.
  unfold grad_at in *. rewrite Hframe, Hgx. simpl.
  rewrite Hd, Hg, Hlibm. reflexivity.
Qed.

Lemma exp_at_zero h x nx :
  wf h → h !! x = Some nx → data nx = 0%float → grad nx = 0%float →
  c_exp 0 = 1%float →
  ∃ y h1 h2, exp x h = Some (y, h1) ∧ backward y h1 = Some (tt, h2) ∧
    grad_at h2 x = Some 1%float.
Proof.
  intros Hwf Hx Hd Hg Hlibm.
  destruct (exp x h) as [[y h1]|] eqn:Hop.
  2:{ exfalso. assert (is_Some (exp x h)) as [? ?]; [|congruence].
      eexists. apply exp_Some. eauto. }
  pose proof Hop as (a & Ha & [= Hy Hh1])%exp_Some.
  assert (a = nx) as -> by congruence.
  destruct (grows_exp x h y h1 Hop) as (_ & Hlt & Hwf1).
  specialize (Hwf1 Hwf).
  destruct (backward_total h1 y (wf_closed _ Hwf1) Hlt) as [h2 Hb].
  exists y, h1, h2. split; [done|]. split; [done|].
  rewrite Hh1 in Hb, Hwf1.
  destruct (backward_fresh x nx h y _ h2 Hwf Hx Hy Hwf1 (or_introl eq_refl) Hb)
    as (hs & hr & E & Hsx & Hsy & Hr & Hframe).
  rewrite <- Hh1 in E.
  destruct (exp_rule x h y h1 hs nx _ Hop E Hsx Hsy) as (h3 & Hr3 & Hadd).
  assert (h3 = hr) as -> by congruence.
  pose proof (adds_to_grad _ _ _ _ _ Hadd Hsx) as Hgx.
  unfold grad_at in *. rewrite Hframe, Hgx. simpl.
  rewrite Hd, Hg, Hlibm. reflexivity.
Qed.

Lemma add_twice h x nx :
  wf h → h !! x = Some nx → grad nx = 0%float →
  ∃ y h1 h2, add x x h = Some (y, h1) ∧ backward y h1 = Some (tt, h2) ∧
    grad_at h2 x = Some 2%float.
Proof.
  intros Hwf Hx Hg.
  destruct (add x x h) as [[y h1]|] eqn:Hop.
  2:{ exfalso. assert (is_Some (add x x h)) as [? ?]; [|congruence].
      eexists. apply add_Some. eauto. }
  pose proof Hop as (a & b & Ha & _ & [= Hy Hh1])%add_Some.
  destruct (grows_add x x h y h1 Hop) as (_ & Hlt & Hwf1).
  specialize (Hwf1 Hwf).
  destruct (backward_total h1 y (wf_closed _ Hwf1) Hlt) as [h2 Hb].
  exists y, h1, h2. split; [done|]. split; [done|].
  rewrite Hh1 in Hb, Hwf1.
  destruct (backward_fresh x nx h y _ h2 Hwf Hx Hy Hwf1 (or_intror eq_refl) Hb)
    as (hs & hr & E & Hsx & Hsy & Hr & Hframe).
  rewrite <- Hh1 in E.
  destruct (add_twice_rule x h y h1 hs nx _ Hop E Hsx Hsy) as (h3 & Hr3 & Hadd).
  assert (h3 = hr) as -> by congruence.
  unfold grad_at. rewrite Hframe, Hadd. simpl. rewrite Hg. reflexivity.
Qed.

End Fixtures.

(** ** Running the builders *)

Section Composites.
Context {libm : Libm}.

Lemma add_run x y a b h :
  h !! x = Some a → h !! y = Some b →
  add x y h = Some (length h,
    h ++ [mkValue (data a + data b) 0 (RAdd x y (length h)) [x; y] "+" ""]).
Proof. intros Ha Hb. apply add_Some. eauto. Qed.

Lemma mul_run x y a b h :
  h !! x = Some a → h !! y = Some b →
  mul x y h = Some (length h,
    h ++ [mkValue (data a * data b) 0 (RMul x y (length h)) [x; y] "*" ""]).
Proof. intros Ha Hb. apply mul_Some. eauto. Qed.

Lemma pow_run x k a h :
  h !! x = Some a →
  pow x k h = Some (length h,
    h ++ [mkValue (c_pow (data a) k) 0 (RPow x k (length h)) [x]
            (String.append "**" (to_string k)) ""]).
Proof. intros Ha. apply pow_Some. eauto. Qed.

Lemma exp_run x a h :
  h !! x = Some a →
  exp x h = Some (length h,
    h ++ [mkValue (c_exp (data a)) 0 (RExp x (length h)) [x] "exp" ""]).
Proof. intros Ha. apply exp_Some. eauto. Qed.

Lemma tanh_run x a h :
  h !! x = Some a →
  tanh x h = Some (length h,
    h ++ [mkValue (c_tanh (data a)) 0 (RTanh x (c_tanh (data a)) (length h))
            [x] "tanh" ""]).
Proof. intros Ha. apply tanh_Some. eauto. Qed.

(** A builder called on operands that exist returns. *)
Lemma build_total c h :
  (∀ p, p ∈ operands c → p < length h) →
  ∃ out h', build c h = Some (out, h').
Proof.
  intros Hops.
  assert (∀ p, p ∈ operands c → ∃ n, h !! p = Some n) as Hlook.
  { intros p Hp. by apply lookup_lt_is_Some_2, Hops. }
  destruct c as [s|x y|x s|s x|x y|x s|s x|x k|x y|x s|s x|x|x y|x s|s x|x|x];
    simpl in *;
    try (destruct (Hlook x) as [nx Hx]; [rewrite !elem_of_cons; auto|]);
    try (destruct (Hlook y) as [ny Hy]; [rewrite !elem_of_cons; auto|]);
    cbv [add_d d_add mul_d d_mul div div_d d_div neg sub sub_d d_sub bind
         constant make_shared];
    repeat first [ erewrite add_run | erewrite mul_run | erewrite pow_run
                 | erewrite exp_run | erewrite tanh_run ];
    try (eexists _, _; reflexivity);
    repeat first [ eassumption
                 | apply list_lookup_middle; reflexivity
                 | apply lookup_app_l_Some ].
Qed.

Lemma data_at_last h n : data_at (h ++ [n]) (length h) = Some (data n).
Proof. unfold data_at. by rewrite list_lookup_middle. Qed.

Lemma neg_value x nx h :
  h !! x = Some nx →
  ∃ out h1, neg x h = Some (out, h1) ∧
    data_at h1 out = Some (data nx * -1)%float.
Proof.
  intros Hx. unfold neg, mul_d, bind, constant, make_shared.
  erewrite mul_run;
    [|by apply lookup_app_l_Some|by apply list_lookup_middle].
  eexists _, _. split; [done|]. apply data_at_last.
Qed.

Lemma sub_value x y nx ny h :
  h !! x = Some nx → h !! y = Some ny →
  ∃ out h1, sub x y h = Some (out, h1) ∧
    data_at h1 out = Some (data nx + data ny * -1)%float.
Proof.
  intros Hx Hy. unfold sub, neg, mul_d, bind, constant, make_shared.
  erewrite mul_run;
    [|by apply lookup_app_l_Some|by apply list_lookup_middle].
  erewrite add_run;
    [|by do 2 apply lookup_app_l_Some|by apply list_lookup_middle].
  eexists _, _. split; [done|]. apply data_at_last.
Qed.

Lemma div_value x y nx ny h :
  h !! x = Some nx → h !! y = Some ny →
  ∃ out h1, div x y h = Some (out, h1) ∧
    data_at h1 out = Some (data nx * c_pow (data ny) (-1))%float.
Proof.
  intros Hx Hy. unfold div, bind.
  erewrite pow_run by done.
  erewrite mul_run;
    [|by apply lookup_app_l_Some|by apply list_lookup_middle].
  eexists _, _. split; [done|]. apply data_at_last.
Qed.

Lemma div_d_value x nx s h :
  h !! x = Some nx →
  ∃ out h1, div_d x s h = Some (out, h1) ∧
    data_at h1 out = Some (data nx * (1 / s))%float.
Proof.
  intros Hx. unfold div_d, mul_d, bind, constant, make_shared.
  erewrite mul_run;
    [|by apply lookup_app_l_Some|by apply list_lookup_middle].
  eexists _, _. split; [done|]. apply data_at_last.
Qed.

Lemma promoted_div_value x nx s h :
  h !! x = Some nx →
  ∃ out h1, promote_right div x s h = Some (out, h1) ∧
    data_at h1 out = Some (data nx * c_pow s (-1))%float.
Proof.
  intros Hx. unfold promote_right, div, bind, constant, make_shared.
  erewrite pow_run by by apply list_lookup_middle.
  erewrite mul_run;
    [|by do 2 apply lookup_app_l_Some|by apply list_lookup_middle].
  eexists _, _. split; [done|]. apply data_at_last.
Qed.

End Composites.

(** ** The machine stack *)

Lemma visit_all_mono (f g : ptr → tstate → option tstate) l :
  (∀ v st r, f v st = Some r → g v st = Some r) →
  ∀ st r, visit_all f l st = Some r → visit_all g l st = Some r.
Proof.
  intros Hfg. induction l as [|c l IH]; intros st r; simpl; [done|].
  destruct (f c st) as [st1|] eqn:Hf; [|done].
  rewrite (Hfg _ _ _ Hf). apply IH.
Qed.

(** The search looks at the parent lists only, and more fuel does not
    change what it finds. *)
Lemma build_topo_mono h h' :
  (∀ v n, h !! v = Some n → ∃ n', h' !! v = Some n' ∧ _prev n' = _prev n) →
  ∀ f f' v st r, f ≤ f' →
    build_topo f h v st = Some r → build_topo f' h' v st = Some r.
Proof.
  intros Hh. induction f as [|f IH]; intros f' v [vis topo] r Hle Hrun;
    [done|].
  destruct f' as [|f']; [lia|]. simpl in *.
  destruct (seen v vis); [done|].
  destruct (h !! v) as [n|] eqn:Hn; [|done].
  destruct (Hh v n Hn) as (n' & -> & ->).
  destruct (visit_all (build_topo f h) _ _) as [[vis' topo']|] eqn:Hall;
    [|done].
  rewrite (visit_all_mono (build_topo f h) (build_topo f' h') (_prev n)
             (λ v' st' r', IH f' v' st' r' ltac:(lia)) _ _ Hall).
  exact Hrun.
Qed.

Lemma topo_order_mono h h' self topo :
  length h ≤ length h' →
  (∀ v n, h !! v = Some n → ∃ n', h' !! v = Some n' ∧ _prev n' = _prev n) →
  topo_order h self = Some topo → topo_order h' self = Some topo.
Proof.
  intros Hlen Hh. unfold topo_order.
  destruct (build_topo (S (length h)) h self ([], [])) as [[vis t]|] eqn:Hb;
    [|done].
  intros [= <-].
  assert (S (length h) ≤ S (length h')) as Hle by lia.
  by rewrite (build_topo_mono h h' Hh _ _ _ _ _ Hle Hb).
Qed.

Section Stack.
Context {libm : Libm}.





End Stack.

(** * Main results *)

(** ** The canonical fixture *)

(** C1.  The program of [main]: with [a = 2], [b = -3], [c = 10], [f = -2],
    [e = a * b], [d = e + c] and [L = d * f], the call [L->backward()]
    leaves [L.data = -8], [L.grad = 1], [f.grad = 4], [d.grad = -2],
    [e.grad = -2], [c.grad = -2], [b.grad = -4] and [a.grad = 6]. *)
Theorem main_fixture {libm : Libm} :
  ∃ a b c f e d L h,
    main [] = Some ((a, b, c, f, e, d, L), h) ∧
    data_at h L = Some (-8.0)%float ∧
    grad_at h L = Some 1.0%float ∧
    grad_at h f = Some 4.0%float ∧
    grad_at h d = Some (-2.0)%float ∧
    grad_at h e = Some (-2.0)%float ∧
    grad_at h c = Some (-2.0)%float ∧
    grad_at h b = Some (-4.0)%float ∧
    grad_at h a = Some 6.0%float.
Proof.
  eexists _, _, _, _, _, _, _, _. split; [vm_compute; reflexivity|].
  repeat split; reflexivity.
Qed.

(** ** The order of the traversal *)

(** C2.  On every finite directed acyclic graph, the order built by the
    depth-first traversal of [backward] holds exactly the objects reachable
    from the called one through parents, each of them once, and every
    object comes after all of its own parents.  Objects are told apart by
    address, whatever numbers they hold. *)
Theorem topo_order_correct (h : Heap) (self : ptr) :
  dag h → prev_closed h → self < length h →
  ∃ topo, topo_order h self = Some topo ∧
    NoDup topo ∧
    (∀ x, x ∈ topo ↔ reach h self x) ∧
    parents_before h topo.
Proof.
  intros Hdag Hclosed Hself.
  destruct (topo_order_total h Hclosed self Hself) as [topo Ht].
  exists topo. split; [done|]. by apply topo_order_spec.
Qed.

Lemma topo_order_correct_witness :
  ∃ topo, topo_order diamond 4 = Some topo ∧
    NoDup topo ∧
    (∀ x, x ∈ topo ↔ reach diamond 4 x) ∧
    parents_before diamond topo.
Proof.
  apply (topo_order_correct diamond 4).
  - exact (acyclic_dag diamond (proj1 wf_diamond)).
  - intros i n p Hn Hp. exact (acyclic_in_range diamond i n p (proj1 wf_diamond) Hn Hp).
  - simpl. lia.
Defined.

(** The two leaves of the diamond hold the same number and are both in
    the order, once each; the shared leaves come first. *)
Example diamond_order : topo_order diamond 4 = Some [0; 1; 2; 3; 4].
Proof. reflexivity. Qed.

(** ** Accumulation *)

(** C3.  Gradients are accumulated.  On a well-formed graph, the objects
    whose closures a backward pass replays are exactly the objects
    reachable from the called one, each replayed once; their deposits go,
    consumer after consumer in replay order, to the operands of each
    consumer, one deposit per operand occurrence; and the final gradient
    of every object is its gradient after the seeding with all the
    deposits made to it added, in that order.  In particular, for
    [y = x + x] with the gradient of [x] still 0, [y->backward()] leaves 2
    in the gradient of [x]. *)
Theorem gradient_accumulation {libm : Libm} (h : Heap) :
  wf h →
  (∀ self, self < length h →
     ∃ topo h1 log h',
       topo_order h self = Some topo ∧ NoDup topo ∧
       (∀ v, v ∈ topo ↔ reach h self v) ∧
       set_grad self 1 h = Some (tt, h1) ∧
       replay_log (reverse topo) h1 = Some log ∧
       backward self h = Some (tt, h') ∧
       log.*1 = flat_map (λ v, rule_targets (rule_of h v)) (reverse topo) ∧
       ∀ x n1, h1 !! x = Some n1 →
         grad_at h' x = Some (credit x log (grad n1))) ∧
  (∀ x nx, h !! x = Some nx → grad nx = 0%float →
     ∃ y h1 h2, add x x h = Some (y, h1) ∧ backward y h1 = Some (tt, h2) ∧
       grad_at h2 x = Some 2.0%float).
Proof.
  intros Hwf. split.
  - intros self Hself.
    destruct (backward_credit h self Hwf Hself)
      as (topo & h1 & log & h' & Ht & Hs & Hlog & Hb & Hfst & Hcr & _).
    destruct (topo_order_reach h self topo Ht) as [Hnd Hreach].
    exists topo, h1, log, h'. repeat (split; [done|]).
    intros x n1 Hx. unfold grad_at. by rewrite (Hcr x n1 Hx).
  - intros x nx Hx Hg. by apply (add_twice h x nx).
Qed.

Lemma gradient_accumulation_witness :
  ∃ y h1 h2,
    add 0 0 diamond = Some (y, h1) ∧
    backward (libm := sample_libm) y h1 = Some (tt, h2) ∧
    grad_at h2 0 = Some 2.0%float.
Proof.
  apply (proj2 (gradient_accumulation (libm := sample_libm) diamond wf_diamond)
           0 (mkValue 3 0 RNoop [] "" "") eq_refl eq_refl).
Defined.

(** ** Repeated passes *)

(** C4.  On a well-formed graph, whatever the gradients were before the
    call, [backward] leaves the gradient of the called object at exactly 1,
    and the gradient of every other object is its value before the call
    with the deposits of this pass added on top, in the order they were
    made: nothing is reset.  The deposits of the pass are those of the
    closures of the objects reachable from the called one, each replayed
    once, one deposit per operand occurrence. *)
Theorem repeated_backward {libm : Libm} (h : Heap) (self : ptr) :
  wf h → self < length h →
  ∃ topo h1 log h',
    topo_order h self = Some topo ∧ NoDup topo ∧
    (∀ v, v ∈ topo ↔ reach h self v) ∧
    set_grad self 1 h = Some (tt, h1) ∧
    replay_log (reverse topo) h1 = Some log ∧
    log.*1 = flat_map (λ v, rule_targets (rule_of h v)) (reverse topo) ∧
    backward self h = Some (tt, h') ∧
    grad_at h' self = Some 1%float ∧
    ∀ x n, x ≠ self → h !! x = Some n →
      grad_at h' x = Some (credit x log (grad n)).
Proof.
  intros Hwf Hself.
  destruct (backward_credit h self Hwf Hself)
    as (topo & h1 & log & h' & Ht & Hs & Hlog & Hb & Hfst & Hcr & Hself').
  destruct (topo_order_reach h self topo Ht) as [Hnd Hreach].
  exists topo, h1, log, h'. repeat (split; [done|]).
  pose proof (set_grad_frame _ _ _ _ Hs) as (_ & F1 & Hg). split.
  - unfold grad_at in *. by rewrite Hself'.
  - intros x n Hx Hn. rewrite <- (F1 x Hx) in Hn.
    unfold grad_at. by rewrite (Hcr x n Hn).
Qed.

Lemma repeated_backward_witness :
  ∃ topo h1 log h',
    topo_order diamond_after 4 = Some topo ∧ NoDup topo ∧
    (∀ v, v ∈ topo ↔ reach diamond_after 4 v) ∧
    set_grad 4 1 diamond_after = Some (tt, h1) ∧
    replay_log (libm := sample_libm) (reverse topo) h1 = Some log ∧
    log.*1
      = flat_map (λ v, rule_targets (rule_of diamond_after v))
          (reverse topo) ∧
    backward (libm := sample_libm) 4 diamond_after = Some (tt, h') ∧
    grad_at h' 4 = Some 1%float ∧
    ∀ x n, x ≠ 4 → diamond_after !! x = Some n →
      grad_at h' x = Some (credit x log (grad n)).
Proof.
  apply (repeated_backward (libm := sample_libm) diamond_after 4).
  - apply (wf_shape diamond diamond_after eq_refl wf_diamond).
  - simpl. lia.
Defined.

(** A second pass over the graph of [main] adds to what the first left. *)
Example main_second_pass {libm : Libm} :
  ∃ h, (r <- main ;; backward (r.2) ;;; ret r) []
         = Some ((0, 1, 2, 3, 4, 5, 6), h) ∧
    grad_at h 6 = Some 1.0%float ∧
    grad_at h 3 = Some 8.0%float ∧
    grad_at h 5 = Some (-4.0)%float ∧
    grad_at h 4 = Some (-6.0)%float ∧
    grad_at h 2 = Some (-6.0)%float ∧
    grad_at h 1 = Some (-16.0)%float ∧
    grad_at h 0 = Some 24.0%float.
Proof. eexists. split; [vm_compute; reflexivity|]. repeat split. Qed.

(** ** Unary rules *)

(** C5.  The closure installed by [pow(x, k)] adds
    [k * pow(x.data, k - 1) * out.grad] to [x.grad], the closure of
    [exp(x)] adds [out.data * out.grad], and the closure of [tanh(x)] adds
    [(1 - out.data * out.data) * out.grad], in whatever state of the
    gradients they are run.  Hence, for [x.data = 0] and [x.grad] still 0,
    [backward] on [tanh(x)] and on [exp(x)] leaves [x.grad = 1], the math
    library returning [tanh(0) = 0] and [exp(0) = 1]. *)
Theorem unary_rules {libm : Libm} (h : Heap) (x : ptr) (nx : Value) :
  wf h → h !! x = Some nx →
  (∀ k, ∃ out h1, pow x k h = Some (out, h1) ∧
     ∀ h2 n2 no,
       shape h2 = shape h1 → h2 !! x = Some n2 → h2 !! out = Some no →
       ∃ h3, run_rule (rule_of h2 out) h2 = Some (tt, h3) ∧
         adds_to x (k * c_pow (data n2) (k - 1) * grad no) h2 h3) ∧
  (∃ out h1, exp x h = Some (out, h1) ∧
     ∀ h2 n2 no,
       shape h2 = shape h1 → h2 !! x = Some n2 → h2 !! out = Some no →
       ∃ h3, run_rule (rule_of h2 out) h2 = Some (tt, h3) ∧
         adds_to x (data no * grad no) h2 h3) ∧
  (∃ out h1, tanh x h = Some (out, h1) ∧
     ∀ h2 n2 no,
       shape h2 = shape h1 → h2 !! x = Some n2 → h2 !! out = Some no →
       ∃ h3, run_rule (rule_of h2 out) h2 = Some (tt, h3) ∧
         adds_to x ((1 - data no * data no) * grad no) h2 h3) ∧
  (data nx = 0.0%float → grad nx = 0%float → c_tanh 0 = 0%float →
     ∃ y h1 h2, tanh x h = Some (y, h1) ∧ backward y h1 = Some (tt, h2) ∧
       grad_at h2 x = Some 1.0%float) ∧
  (data nx = 0.0%float → grad nx = 0%float → c_exp 0 = 1%float →
     ∃ y h1 h2, exp x h = Some (y, h1) ∧ backward y h1 = Some (tt, h2) ∧
       grad_at h2 x = Some 1.0%float).
Proof.
  intros Hwf Hx. split; [|split; [|split; [|split]]].
  - intros k. eexists _, _. split; [by apply pow_run|].
    intros h2 n2 no. by apply (pow_rule x k h), pow_run.
  - eexists _, _. split; [by apply exp_run|].
    intros h2 n2 no. by apply (exp_rule x h), exp_run.
  - eexists _, _. split; [by apply tanh_run|].
    intros h2 n2 no. by apply (tanh_rule x h), tanh_run.
  - intros Hd Hg Hlibm. by eapply tanh_at_zero.
  - intros Hd Hg Hlibm. by eapply exp_at_zero.
Qed.

Lemma unary_rules_witness :
  (∃ y h1 h2,
     tanh (libm := sample_libm) 0 zero_leaf = Some (y, h1) ∧
     backward (libm := sample_libm) y h1 = Some (tt, h2) ∧
     grad_at h2 0 = Some 1.0%float) ∧
  (∃ y h1 h2,
     exp (libm := sample_libm) 0 zero_leaf = Some (y, h1) ∧
     backward (libm := sample_libm) y h1 = Some (tt, h2) ∧
     grad_at h2 0 = Some 1.0%float).
Proof.
  destruct (unary_rules (libm := sample_libm) zero_leaf 0
              (mkValue 0.0%float 0 RNoop [] "" "") wf_zero_leaf eq_refl)
    as (_ & _ & _ & Htanh & Hexp).
  split; [apply Htanh|apply Hexp]; reflexivity.
Defined.

(** ** Composite builders *)

(** C6.  Negation, subtraction and division (of two nodes) are the stated
    compositions of multiply, add and power: as heap computations they
    coincide with them, alone and followed by [backward], so the value of
    the result and every gradient left by the pass are those of the
    composition; the values are [x * -1], [x + y * -1] and
    [x * pow(y, -1)]. *)
Theorem compositional_builders {libm : Libm} (x y : ptr) (h : Heap) :
  (neg x h = negate_spec x h ∧
   sub x y h = subtract_spec x y h ∧
   div x y h = divide_spec x y h) ∧
  (then_backward (neg x) h = then_backward (negate_spec x) h ∧
   then_backward (sub x y) h = then_backward (subtract_spec x y) h ∧
   then_backward (div x y) h = then_backward (divide_spec x y) h) ∧
  (∀ nx ny, h !! x = Some nx → h !! y = Some ny →
     (∃ out h1, neg x h = Some (out, h1) ∧
        data_at h1 out = Some (data nx * -1)%float) ∧
     (∃ out h1, sub x y h = Some (out, h1) ∧
        data_at h1 out = Some (data nx + data ny * -1)%float) ∧
     (∃ out h1, div x y h = Some (out, h1) ∧
        data_at h1 out = Some (data nx * c_pow (data ny) (-1))%float)).
Proof.
  split; [|split].
  - repeat split; reflexivity.
  - repeat split; reflexivity.
  - intros nx ny Hx Hy. split; [|split].
    + by apply neg_value.
    + by apply sub_value.
    + by apply div_value.
Qed.

Lemma compositional_builders_witness :
  (∃ out h1, neg 0 diamond = Some (out, h1) ∧
     data_at h1 out = Some (3 * -1)%float) ∧
  (∃ out h1, sub 0 1 diamond = Some (out, h1) ∧
     data_at h1 out = Some (3 + 3 * -1)%float) ∧
  (∃ out h1, div (libm := sample_libm) 0 1 diamond = Some (out, h1) ∧
     data_at h1 out = Some (3 * @c_pow sample_libm 3 (-1))%float).
Proof.
  apply (proj2 (proj2 (compositional_builders (libm := sample_libm) 0 1 diamond))
           (mkValue 3 0 RNoop [] "" "") (mkValue 3 0 RNoop [] "" "")
           eq_refl eq_refl).
Defined.

(** ** Scalar operands *)

(** C7, as the code has it.  With a scalar on either side, add, multiply
    and subtract, and divide with the scalar on the left, promote the
    scalar to a fresh constant leaf and run the builder for two nodes.
    Dividing a node by a scalar [s] does not: it promotes the reciprocal
    [1 / s] and runs multiply, so the result holds [x * (1 / s)], where
    the division by a promoted [s] would hold [x * pow(s, -1)]. *)
Theorem scalar_promotion {libm : Libm} (x : ptr) (s : float) (h : Heap) :
  (add_d x s h = promote_right add x s h ∧
   d_add s x h = promote_left add s x h ∧
   mul_d x s h = promote_right mul x s h ∧
   d_mul s x h = promote_left mul s x h ∧
   sub_d x s h = promote_right sub x s h ∧
   d_sub s x h = promote_left sub s x h ∧
   d_div s x h = promote_left div s x h) ∧
  (then_backward (add_d x s) h = then_backward (promote_right add x s) h ∧
   then_backward (d_add s x) h = then_backward (promote_left add s x) h ∧
   then_backward (mul_d x s) h = then_backward (promote_right mul x s) h ∧
   then_backward (d_mul s x) h = then_backward (promote_left mul s x) h ∧
   then_backward (sub_d x s) h = then_backward (promote_right sub x s) h ∧
   then_backward (d_sub s x) h = then_backward (promote_left sub s x) h ∧
   then_backward (d_div s x) h = then_backward (promote_left div s x) h) ∧
  (div_d x s h = promote_right mul x (1 / s)%float h ∧
   then_backward (div_d x s) h
     = then_backward (promote_right mul x (1 / s)%float) h ∧
   ∀ nx, h !! x = Some nx →
     (∃ out h1, div_d x s h = Some (out, h1) ∧
        data_at h1 out = Some (data nx * (1 / s))%float) ∧
     (∃ out h1, promote_right div x s h = Some (out, h1) ∧
        data_at h1 out = Some (data nx * c_pow s (-1))%float)).
Proof.
  split; [|split].
  - repeat split; reflexivity.
  - repeat split; reflexivity.
  - split; [reflexivity|]. split; [reflexivity|].
    intros nx Hx. split; [by apply div_d_value|by apply promoted_div_value].
Qed.

Lemma scalar_promotion_witness :
  (∃ out h1, div_d 0 2.0%float three_leaf = Some (out, h1) ∧
     data_at h1 out = Some (3.0 * (1 / 2.0))%float) ∧
  (∃ out h1,
     promote_right (div (libm := sample_libm)) 0 2.0%float three_leaf
       = Some (out, h1) ∧
     data_at h1 out = Some (3.0 * @c_pow sample_libm 2.0 (-1))%float).
Proof.
  apply (proj2 (proj2 (proj2 (proj2
           (scalar_promotion (libm := sample_libm) 0 2.0%float three_leaf))))
           (mkValue 3.0%float 0 RNoop [] "" "") eq_refl).
Defined.

(** Dividing a node by a scalar is not a promoted division: whatever the
    math library, [x / 2.0] on a heap holding [x = 3.0] differs from the
    division of [x] by [constant(2.0)].  It allocates two objects, a leaf
    holding [0.5] and a product, where the promoted division allocates
    three. *)
Lemma div_d_not_promoted :
  ¬ ∃ L : Libm,
      div_d 0 2.0%float three_leaf
      = promote_right (@div L) 0 2.0%float three_leaf.
Proof. intros [L E]. vm_compute in E. discriminate E. Qed.

Example div_d_run :
  div_d 0 2.0%float three_leaf
  = Some (2, [ mkValue 3.0%float 0 RNoop [] "" "";
               mkValue 0.5%float 0 RNoop [] "" "";
               mkValue 1.5%float 0 (RMul 0 1 2) [0; 1] "*" "" ]).
Proof. reflexivity. Qed.

Example promoted_div_run :
  promote_right (div (libm := sample_libm)) 0 2.0%float three_leaf
  = Some (3, [ mkValue 3.0%float 0 RNoop [] "" "";
               mkValue 2.0%float 0 RNoop [] "" "";
               mkValue 0%float 0 (RPow 1 (-1) 2) [1] "**" "";
               mkValue 0%float 0 (RMul 0 2 3) [0; 2] "*" "" ]).
Proof. reflexivity. Qed.

(** ** Frame properties *)

(** C8.  Frame property.  A builder called on existing operands returns
    and leaves every object that existed before it exactly as it was,
    gradient included; over any sequence of builder calls and backward
    passes an object keeps its value, its parents, its closure, its tag and
    its label, only its gradient accumulator being written; and a backward
    pass neither creates nor removes an object. *)
Theorem frame_property {libm : Libm} (h : Heap) :
  (∀ c, (∀ p, p ∈ operands c → p < length h) →
     ∃ out h', build c h = Some (out, h') ∧
       ∀ p n, h !! p = Some n → h' !! p = Some n) ∧
  (∀ h', rtc api_step h h' →
     ∀ p n, h !! p = Some n →
       ∃ n', h' !! p = Some n' ∧
         data n' = data n ∧ _prev n' = _prev n ∧
         _backward n' = _backward n ∧ _op n' = _op n ∧ label n' = label n) ∧
  (∀ self h', backward self h = Some (tt, h') → length h' = length h).
Proof.
  split; [|split].
  - intros c Hops. destruct (build_total c h Hops) as (out & h' & Hb).
    exists out, h'. split; [done|]. intros p n Hn. by eapply build_prefix.
  - intros h' Hsteps p n Hn.
    destruct (api_steps_skel h h' Hsteps p n Hn) as (n' & Hn' & E).
    exists n'. split; [done|].
    pose proof (f_equal data E). pose proof (f_equal _prev E).
    pose proof (f_equal _backward E). pose proof (f_equal _op E).
    pose proof (f_equal label E). done.
  - intros self h' Hb. by eapply shape_eq_length, backward_shape.
Qed.

Lemma frame_property_witness :
  ∃ n', diamond_after !! 2 = Some n' ∧
    data n' = 9%float ∧ _prev n' = [0; 1] ∧
    _backward n' = RMul 0 1 2 ∧ _op n' = "*" ∧ label n' = "".
Proof.
  apply (proj1 (proj2 (frame_property (libm := sample_libm) diamond))
           diamond_after
           (rtc_once _ _ (step_backward 4 _ _ diamond_backward))
           2 (mkValue 9 0 (RMul 0 1 2) [0; 1] "*" "") eq_refl).
Defined.

(** C9.  On a well-formed graph, [backward] returns and leaves alone every
    object from which the called one cannot be reached; called on an
    object without parents, it only sets the gradient of that object
    to 1. *)
Theorem backward_frame {libm : Libm} (h : Heap) (self : ptr) :
  wf h → self < length h →
  ∃ h', backward self h = Some (tt, h') ∧
    (∀ x, ¬ reach h self x → h' !! x = h !! x) ∧
    (∀ n, h !! self = Some n → _prev n = [] →
       h' = <[self := with_grad n 1]> h).
Proof.
  intros Hwf Hself.
  destruct (backward_total h self (wf_closed h Hwf) Hself) as [h' Hb].
  exists h'. split; [done|]. split.
  - intros x Hx. by eapply backward_unreachable.
  - intros n Hn Hp. by eapply backward_leaf.
Qed.

Lemma backward_frame_witness :
  ∃ h', backward (libm := sample_libm) 0 diamond = Some (tt, h') ∧
    (∀ x, ¬ reach diamond 0 x → h' !! x = diamond !! x) ∧
    (∀ n, diamond !! 0 = Some n → _prev n = [] →
       h' = <[0 := with_grad n 1]> diamond).
Proof.
  apply (backward_frame (libm := sample_libm) diamond 0 wf_diamond).
  simpl. lia.
Defined.

(** ** Termination *)




(** A running sum of three additions, on a stack that holds three nested
    calls. *)
Example short_stack :
  ∃ h, run_calls (libm := sample_libm)
         [Constant 0; AddD 0 1; AddD 2 1; AddD 4 1] [] = Some h ∧
    backward_on (libm := sample_libm) 3 6 h = None ∧
    is_Some (backward_on (libm := sample_libm) 4 6 h).
Proof. eexists. split; [reflexivity|]. split; [reflexivity|]. by eexists. Qed.

(** * Further properties *)

(** ** Graphs a client can reach *)

Lemma run_calls_steps {libm : Libm} cs : ∀ h h',
  run_calls cs h = Some h' → rtc api_step h h'.
Proof.
  induction cs as [|c cs IH]; intros h h' Hrun; simpl in Hrun.
  - injection Hrun as <-. apply rtc_refl.
  - destruct (build c h) as [[out h1]|] eqn:Hb; [|done].
    eapply rtc_l; [by eapply step_build|]. by apply IH.
Qed.

(** X1.  Whatever sequence of builder calls and backward passes a client
    runs from the empty heap, the graph it reaches is acyclic, every
    stored pointer designates an object, and every closure writes only to
    parents of the object holding it, which were allocated before it. *)
Theorem client_heaps_sound {libm : Libm} (h : Heap) :
  rtc api_step [] h →
  dag h ∧ closed h ∧
  (∀ v p, p ∈ rule_targets (rule_of h v) → p ∈ parents h v ∧ p < v).
Proof.
  intros Hsteps. pose proof (api_reachable_wf h Hsteps) as Hwf.
  split; [by apply acyclic_dag, Hwf|]. split; [by apply wf_closed|].
  intros v p. by apply wf_targets.
Qed.

Lemma client_heaps_sound_witness :
  dag diamond ∧ closed diamond ∧
  (∀ v p, p ∈ rule_targets (rule_of diamond v) →
     p ∈ parents diamond v ∧ p < v).
Proof.
  apply (client_heaps_sound (libm := sample_libm) diamond).
  exact (run_calls_steps diamond_calls [] diamond diamond_built).
Defined.

(** ** What a builder returns *)

(** X2.  The constructor of a leaf and each of the sixteen builders,
    called on operands that exist, returns; it leaves the objects that
    exist as they are and appends [allocs c] new ones, each with gradient
    [0] and an empty label; the object it returns is the last of them, and
    holds the number [forward] computes from the numbers of the
    operands. *)
Theorem build_result {libm : Libm} (c : call) (h : Heap) :
  (∀ p, p ∈ operands c → p < length h) →
  ∃ fresh,
    build c h = Some (length h + allocs c - 1, h ++ fresh) ∧
    length fresh = allocs c ∧
    Forall (λ n, grad n = 0%float ∧ label n = "") fresh ∧
    data <$> last fresh = Some (forward c h).
Proof.
  intros Hops.
  assert (∀ p, p ∈ operands c → ∃ n, h !! p = Some n) as Hlook.
  { intros p Hp. by apply lookup_lt_is_Some_2, Hops. }
  destruct c as [s|x y|x s|s x|x y|x s|s x|x k|x y|x s|s x|x|x y|x s|s x|x|x];
    simpl in *;
    try (destruct (Hlook x) as [nx Hx]; [rewrite !elem_of_cons; auto|]);
    try (destruct (Hlook y) as [ny Hy]; [rewrite !elem_of_cons; auto|]);
    cbv [add_d d_add mul_d d_mul div div_d d_div neg sub sub_d d_sub bind
         constant make_shared value];
    repeat first [ erewrite add_run | erewrite mul_run | erewrite pow_run
                 | erewrite exp_run | erewrite tanh_run ];
    repeat first [ eassumption
                 | apply list_lookup_middle; reflexivity
                 | apply lookup_app_l_Some ];
    rewrite ?Hx, ?Hy, <- ?app_assoc; simpl;
    (eexists; split; [do 2 f_equal; rewrite ?length_app; simpl; lia|]);
    (split; [reflexivity|]);
    (split; [repeat constructor|reflexivity]).
Qed.

Lemma build_result_witness :
  ∃ fresh,
    build (libm := sample_libm) (DSub 1 0) three_leaf
      = Some (4, three_leaf ++ fresh) ∧
    length fresh = 4 ∧
    Forall (λ n, grad n = 0%float ∧ label n = "") fresh ∧
    data <$> last fresh = Some (1 + 3 * -1)%float.
Proof.
  apply (build_result (libm := sample_libm) (DSub 1 0) three_leaf).
  intros p Hp. apply elem_of_cons in Hp as [->|Hp]; [simpl; lia|].
  by apply elem_of_nil in Hp.
Defined.

(** ** The equations the gradients satisfy after a pass *)

Section Equations.
Context {libm : Libm}.

Lemma shape_eq_data_at h h' p : shape h' = shape h → data_at h' p = data_at h p.
Proof.
  intros E. unfold data_at.
  pose proof (f_equal (λ l, l !! p) E) as Ep. simpl in Ep.
  rewrite !shape_lookup in Ep.
  destruct (h' !! p) as [n'|], (h !! p) as [n|]; simpl in *; try done.
  injection Ep. intros. by f_equal.
Qed.

(** The deposits of a closure depend on the numbers of the graph and on
    the gradient of the object that holds it, on nothing else. *)
Lemma rule_deposits_ext i n h h' :
  wf_rule i n → shape h' = shape h → h' !! i = h !! i →
  rule_deposits (_backward n) h' = rule_deposits (_backward n) h.
Proof.
  unfold wf_rule. intros Hr E Hi.
  destruct (_backward n); simpl; [done|..];
    destruct Hr as [-> Hr]; unfold grad_at;
    by rewrite Hi, ?(shape_eq_data_at _ _ _ E).
Qed.

(** When the closure of an object runs, the gradient of that object has
    its final value already: the deposits made during the replay are the
    ones the final state gives. *)
Lemma replay_final topo : ∀ h h',
  wf h → NoDup topo →
  (∀ i w p, topo !! i = Some w → p ∈ rule_targets (rule_of h w) →
     ∃ j, j < i ∧ topo !! j = Some p) →
  replay (reverse topo) h = Some (tt, h') →
  replay_log (reverse topo) h
    = Some (flat_map (deposits_of h') (reverse topo)).
Proof.
  induction topo as [|v t IH] using rev_ind; intros h h' Hwf Hnd Hord Hrun;
    [done|].
  rewrite reverse_snoc in *.
  apply NoDup_app in Hnd as (Hndt & Hdisj & _).
  pose proof Hrun as Hrun0.
  apply replay_cons_Some in Hrun as (n & h1 & Hn & Hrule & Hrest).
  pose proof (run_rule_frame _ _ _ Hrule) as [E1 _].
  pose proof (replay_frame _ _ _ Hrun0) as [E2 Hframe].
  destruct (run_rule_credit _ _ _ (wf_self_free _ _ _ Hwf Hn) Hrule)
    as (ds & Hds & _ & _).
  assert (∀ i w p, t !! i = Some w → p ∈ rule_targets (rule_of h w) →
            ∃ j, j < i ∧ t !! j = Some p) as Hordt.
  { intros i w p Hi Hp.
    destruct (Hord i w p) as (j & Hj & Hjp); [by apply lookup_app_l_Some|done|].
    exists j. split; [done|]. rewrite lookup_app_l in Hjp; [done|].
    apply lookup_lt_Some in Hi. lia. }
  assert (h' !! v = h !! v) as Hv.
  { apply Hframe. intros w Hw Hin.
    apply elem_of_cons in Hw as [->|Hw%in_reverse].
    - apply (wf_targets h v v Hwf) in Hin as [_ Hlt]. lia.
    - apply list_elem_of_lookup in Hw as [i Hi].
      destruct (Hordt i w v Hi Hin) as (j & _ & Hjv).
      apply (Hdisj v); [by eapply list_elem_of_lookup_2|by left]. }
  simpl. rewrite Hn. simpl. rewrite Hds. simpl. rewrite Hrule. simpl.
  rewrite (IH h1 h'); [|by eapply wf_shape|done| |done].
  - simpl. do 2 f_equal. unfold deposits_of, rule_of. rewrite Hv, Hn.
    destruct Hwf as [_ Hwr].
    by rewrite (rule_deposits_ext v n h h' (Hwr v n Hn) E2 Hv), Hds.
  - intros i w p Hi Hp. rewrite (shape_eq_rule_of _ _ _ E1) in Hp. eauto.
Qed.

Lemma deposits_of_defined h v :
  wf h → is_Some (rule_deposits (rule_of h v) h).
Proof.
  intros Hwf. unfold rule_of. destruct (h !! v) as [n|] eqn:Hn; [|by eexists].
  destruct (run_rule_total (_backward n) h) as [h1 H1].
  { by apply (wf_closed h Hwf v n). }
  destruct (run_rule_credit _ _ _ (wf_self_free _ _ _ Hwf Hn) H1)
    as (ds & Hds & _). by eexists.
Qed.

Lemma backward_final_log h self :
  wf h → self < length h →
  ∃ topo h',
    topo_order h self = Some topo ∧
    backward self h = Some (tt, h') ∧
    grad_at h' self = Some 1%float ∧
    (∀ v, is_Some (rule_deposits (rule_of h' v) h')) ∧
    ∀ x nx, x ≠ self → h !! x = Some nx →
      grad_at h' x
        = Some (credit x (flat_map (deposits_of h') (reverse topo)) (grad nx)).
Proof.
  intros Hwf Hself.
  destruct (backward_credit h self Hwf Hself)
    as (topo & h1 & log & h' & Ht & Hs & Hlog & Hb & _ & Hcr & Hroot).
  pose proof (set_grad_frame _ _ _ _ Hs) as (E1 & F1 & G1).
  pose proof (wf_shape _ _ E1 Hwf) as Hwf1.
  pose proof Hb as (topo' & h1' & Ht' & Hs' & Hr)%backward_Some.
  assert (topo' = topo) as -> by congruence.
  assert (h1' = h1) as -> by congruence.
  pose proof (replay_frame _ _ _ Hr) as [E2 _].
  pose proof (topo_order_spec h (acyclic_dag h (proj1 Hwf)) self topo Ht)
    as (Hnd & _ & Hpb).
  assert (log = flat_map (deposits_of h') (reverse topo)) as ->.
  { assert (Some log = Some (flat_map (deposits_of h') (reverse topo)))
      as [= ->]; [|done].
    rewrite <- Hlog. apply replay_final; [done..| |done].
    intros i w p Hi Hp. rewrite (shape_eq_rule_of _ _ _ E1) in Hp.
    apply (wf_targets h w p Hwf) in Hp as [Hp _]. by eapply Hpb. }
  exists topo, h'. split; [done|]. split; [done|]. split; [|split].
  - unfold grad_at in *. by rewrite Hroot.
  - intros v. apply deposits_of_defined. by eapply wf_shape.
  - intros x nx Hne Hx. rewrite <- F1 in Hx by done.
    unfold grad_at. by rewrite (Hcr x nx Hx).
Qed.

End Equations.

(** X3.  The backpropagation equations.  After [backward] on a well-formed
    graph, the gradient of the root is [1], and the gradient of every
    other object is what it was before plus, for each object reachable
    from the root taken in replay order, what the closure of that object
    deposits given the final gradient of that object; all these closures
    find the objects they read.  The replay order is the reverse of an
    order that holds the objects reachable from the root, each once, and
    every object after its own parents. *)
Theorem backward_equations {libm : Libm} (h : Heap) (self : ptr) :
  wf h → self < length h →
  ∃ topo h',
    topo_order h self = Some topo ∧
    NoDup topo ∧ (∀ v, v ∈ topo ↔ reach h self v) ∧
    parents_before h topo ∧
    backward self h = Some (tt, h') ∧
    grad_at h' self = Some 1%float ∧
    (∀ v, is_Some (rule_deposits (rule_of h' v) h')) ∧
    ∀ x nx, x ≠ self → h !! x = Some nx →
      grad_at h' x
        = Some (credit x (flat_map (deposits_of h') (reverse topo)) (grad nx)).
Proof.
  intros Hwf Hself.
  destruct (backward_final_log h self Hwf Hself)
    as (topo & h' & Ht & Hb & Hroot & Hdef & Heq).
  destruct (topo_order_spec h (acyclic_dag h (proj1 Hwf)) self topo Ht)
    as (Hnd & Hreach & Hbefore).
  by exists topo, h'.
Qed.

Lemma backward_equations_witness :
  ∃ topo h',
    topo_order diamond 4 = Some topo ∧
    NoDup topo ∧ (∀ v, v ∈ topo ↔ reach diamond 4 v) ∧
    parents_before diamond topo ∧
    backward (libm := sample_libm) 4 diamond = Some (tt, h') ∧
    grad_at h' 4 = Some 1%float ∧
    (∀ v, is_Some (rule_deposits (libm := sample_libm) (rule_of h' v) h')) ∧
    ∀ x nx, x ≠ 4 → diamond !! x = Some nx →
      grad_at h' x
        = Some (credit x
                  (flat_map (deposits_of (libm := sample_libm) h')
                     (reverse topo))
                  (grad nx)).
Proof.
  apply (backward_equations (libm := sample_libm) diamond 4 wf_diamond).
  vm_compute. lia.
Defined.

(** ** An object with one consumer *)

Lemma credit_skip x log g : x ∉ log.*1 → credit x log g = g.
Proof.
  revert g. induction log as [|d log IH]; intros g Hx; [done|].
  rewrite fmap_cons, not_elem_of_cons in Hx. destruct Hx as [Hd Hx].
  unfold credit. simpl. rewrite decide_False by done. by apply IH.
Qed.

Lemma credit_sole {A} (f : A → list deposit) x v order g :
  NoDup order → v ∈ order →
  (∀ w, w ∈ order → w ≠ v → x ∉ (f w).*1) →
  credit x (flat_map f order) g = credit x (f v) g.
Proof.
  intros Hnd Hv Hother.
  apply list_elem_of_split in Hv as (l1 & l2 & ->).
  apply NoDup_app in Hnd as (_ & Hdisj & [Hv2 _]%NoDup_cons).
  assert (∀ l, (∀ w, w ∈ l → w ∈ l1 ++ v :: l2 ∧ w ≠ v) →
            x ∉ (flat_map f l).*1) as Hskip.
  { induction l as [|w l IH]; intros Hl; simpl; [by inversion 1|].
    rewrite fmap_app, elem_of_app. intros [Hw|Hw].
    - destruct (Hl w) as [Hin Hne]; [by left|]. by apply (Hother w Hin Hne).
    - apply IH; [|done]. intros w' Hw'. apply Hl. by right. }
  rewrite flat_map_app. simpl. rewrite !credit_app.
  rewrite (credit_skip x (flat_map f l1)).
  - apply credit_skip, Hskip. intros w Hw. split.
    + rewrite elem_of_app, elem_of_cons. auto.
    + by intros ->.
  - apply Hskip. intros w Hw. split.
    + rewrite elem_of_app. auto.
    + intros ->. apply (Hdisj v Hw). by left.
Qed.

Section Consumers.
Context {libm : Libm}.

Lemma rule_deposits_targets r h ds :
  rule_deposits r h = Some ds → ds.*1 = rule_targets r.
Proof. destruct r; simpl; intros Hds; simplify_option_eq; done. Qed.

Lemma deposits_of_targets h v p :
  p ∈ (deposits_of h v).*1 → p ∈ rule_targets (rule_of h v).
Proof.
  unfold deposits_of.
  destruct (rule_deposits (rule_of h v) h) as [ds|] eqn:Hds; simpl.
  - by rewrite (rule_deposits_targets _ _ _ Hds).
  - by inversion 1.
Qed.

(** If, among the objects reachable from the root, [v] alone has [x] as
    a parent, then the pass adds to the gradient of [x] what the closure
    of [v] deposits there, and nothing else. *)
Lemma backward_via h self h' x nx v :
  wf h → backward self h = Some (tt, h') →
  h !! x = Some nx → x ≠ self → reach h self v →
  (∀ w, reach h self w → x ∈ parents h w → w = v) →
  grad_at h' x = Some (credit x (deposits_of h' v) (grad nx)).
Proof.
  intros Hwf Hb Hx Hne Hv Hsole.
  assert (self < length h) as Hself.
  { apply backward_Some in Hb as (? & ? & _ & (n & Hn & _)%set_grad_Some & _).
    by eapply lookup_lt_Some. }
  destruct (backward_final_log h self Hwf Hself)
    as (topo & h'' & Ht & Hb' & _ & _ & Heq).
  assert (h'' = h') as -> by congruence.
  rewrite (Heq x nx Hne Hx). f_equal.
  pose proof (topo_order_reach h self topo Ht) as [Hnd Hreach].
  pose proof (backward_shape _ _ _ Hb) as E.
  apply credit_sole.
  - by rewrite reverse_Permutation.
  - apply elem_of_reverse. by apply Hreach.
  - intros w Hw%in_reverse Hwv Hin. apply Hwv, Hsole; [by apply Hreach|].
    apply deposits_of_targets in Hin.
    rewrite (shape_eq_rule_of _ _ _ E) in Hin.
    by apply (wf_targets h w x Hwf) in Hin as [Hin _].
Qed.

End Consumers.

(** X4.  The chain rule, one edge at a time.  If, among the objects
    reachable from the root, [v] alone has [x] as a parent, then
    [backward] adds to the gradient of [x] what the closure of [v]
    deposits there given the final gradient of [v], and nothing else. *)
Theorem sole_consumer {libm : Libm} (h : Heap) (self x v : ptr) (nx : Value) :
  wf h → self < length h → h !! x = Some nx → x ≠ self →
  reach h self v →
  (∀ w, reach h self w → x ∈ parents h w → w = v) →
  ∃ h', backward self h = Some (tt, h') ∧
    grad_at h' x = Some (credit x (deposits_of h' v) (grad nx)).
Proof.
  intros Hwf Hself Hx Hne Hv Hsole.
  destruct (backward_total h self (wf_closed h Hwf) Hself) as [h' Hb].
  exists h'. split; [done|]. by eapply backward_via.
Qed.

Lemma sole_consumer_witness :
  ∃ h', backward (libm := sample_libm) 4 diamond = Some (tt, h') ∧
    grad_at h' 2
      = Some (credit 2 (deposits_of (libm := sample_libm) h' 4) 0%float).
Proof.
  apply (sole_consumer (libm := sample_libm) diamond 4 2 4
           (mkValue 9 0 (RMul 0 1 2) [0; 1] "*" "") wf_diamond).
  - vm_compute. lia.
  - reflexivity.
  - lia.
  - apply rtc_refl.
  - intros w _ Hw.
    do 5 (destruct w as [|w];
          [vm_compute in Hw;
           repeat (apply elem_of_cons in Hw as [Hw|Hw]; [try lia|]);
           try (by apply elem_of_nil in Hw); try done|]).
    vm_compute in Hw. destruct w; by apply elem_of_nil in Hw.
Defined.

(** ** Objects just allocated *)

Lemma lookup_fresh (h fresh : Heap) i :
  (h ++ fresh) !! (i + length h) = fresh !! i.
Proof. rewrite lookup_app_r by lia. f_equal. lia. Qed.

Lemma parents_old h fresh a :
  a < length h → parents (h ++ fresh) a = parents h a.
Proof. intros Ha. unfold parents. by rewrite lookup_app_l. Qed.

Lemma parents_lt h a p : acyclic h → p ∈ parents h a → p < a ∧ a < length h.
Proof.
  intros Hacyc. unfold parents.
  destruct (h !! a) as [n|] eqn:Hn; [|by inversion 1].
  intros Hp. split; [by eapply Hacyc|by eapply lookup_lt_Some].
Qed.

Lemma parents_fresh h fresh w p :
  length h ≤ w → p ∈ parents (h ++ fresh) w →
  ∃ i n, w = i + length h ∧ fresh !! i = Some n ∧ p ∈ _prev n.
Proof.
  intros Hw Hp. unfold parents in Hp.
  replace w with ((w - length h) + length h) in Hp by lia.
  rewrite lookup_fresh in Hp.
  destruct (fresh !! (w - length h)) as [n|] eqn:Hn; [|by inversion Hp].
  exists (w - length h), n. split; [lia|done].
Qed.

(** Allocating does not change what an existing object reaches. *)
Lemma reach_old h fresh a w :
  acyclic (h ++ fresh) → a < length h →
  reach (h ++ fresh) a w → reach h a w.
Proof.
  intros Hacyc Ha Hr. induction Hr as [a|a p w Hp _ IH]; [apply rtc_refl|].
  pose proof (parents_lt _ _ _ Hacyc Hp) as [Hlt _].
  rewrite parents_old in Hp by done.
  eapply rtc_l; [exact Hp|]. apply IH. lia.
Qed.

(** A path from a new object to an old one leaves the new objects by a
    parent pointer of one of them. *)
Lemma reach_enter h fresh a w :
  acyclic (h ++ fresh) → reach (h ++ fresh) a w →
  length h ≤ a → w < length h →
  ∃ i n b, fresh !! i = Some n ∧ b ∈ _prev n ∧ b < length h ∧ reach h b w.
Proof.
  intros Hacyc Hr. induction Hr as [a|a p w Hp Hr IH]; intros Ha Hw; [lia|].
  destruct (decide (p < length h)) as [Hlt|Hge]; [|apply IH; lia].
  destruct (parents_fresh _ _ _ _ Ha Hp) as (i & n & _ & Hn & Hpn).
  exists i, n, p. repeat (split; [done|]). by eapply reach_old.
Qed.

Section Fresh.
Context {libm : Libm}.

(** The gradient, after a pass from a new object, of an old object that
    one new object consumes and that feeds no other operand of the new
    objects. *)
Lemma fresh_via_old h fresh out h2 x nx j nv :
  wf (h ++ fresh) → backward out (h ++ fresh) = Some (tt, h2) →
  h !! x = Some nx → length h ≤ out →
  fresh !! j = Some nv → reach (h ++ fresh) out (j + length h) →
  (∀ i n, fresh !! i = Some n → x ∈ _prev n → i = j) →
  (∀ i n b, fresh !! i = Some n → b ∈ _prev n → b < length h → b ≠ x →
     ¬ reach h b x) →
  grad_at h2 x
    = Some (credit x (deposits_of h2 (j + length h)) (grad nx)).
Proof.
  intros Hwf Hb Hx Hout Hj Hv Hcons Hfeeds.
  pose proof (lookup_lt_Some _ _ _ Hx) as Hxlt.
  apply (backward_via (h ++ fresh) out); [done..| |lia|done|].
  { by apply lookup_app_l_Some. }
  intros w Hw Hp.
  destruct (decide (w < length h)) as [Hold|Hnew].
  - exfalso.
    destruct (reach_enter h fresh out w (proj1 Hwf) Hw Hout Hold)
      as (i & n & b & Hi & Hbn & Hblt & Hbw).
    rewrite parents_old in Hp by done.
    assert (reach h b x) as Hbx.
    { eapply rtc_r; [exact Hbw|]. exact Hp. }
    destruct (decide (b = x)) as [->|Hne]; [|by eapply Hfeeds].
    assert (acyclic h) as Hacyc.
    { intros i' n' p' Hn' Hp'.
      apply (proj1 Hwf i' n' p'); [by apply lookup_app_l_Some|done]. }
    pose proof (parents_lt _ _ _ Hacyc Hp) as [Hxw _].
    apply (reach_le h x w Hacyc) in Hbw. lia.
  - destruct (parents_fresh h fresh w x) as (i & n & -> & Hn & Hpn);
      [lia|done|].
    f_equal. by eapply Hcons.
Qed.

(** The same for a new object that one new object consumes. *)
Lemma fresh_via_new h fresh out h2 k nk j nv :
  wf (h ++ fresh) → backward out (h ++ fresh) = Some (tt, h2) →
  fresh !! k = Some nk → k + length h ≠ out →
  fresh !! j = Some nv → reach (h ++ fresh) out (j + length h) →
  (∀ i n, fresh !! i = Some n → k + length h ∈ _prev n → i = j) →
  grad_at h2 (k + length h)
    = Some (credit (k + length h) (deposits_of h2 (j + length h)) (grad nk)).
Proof.
  intros Hwf Hb Hk Hne Hj Hv Hcons.
  apply (backward_via (h ++ fresh) out); [done..| |done|done|].
  { by rewrite lookup_fresh. }
  intros w Hw Hp.
  pose proof (parents_lt _ _ _ (proj1 Hwf) Hp) as [Hxw Hwlt].
  destruct (parents_fresh h fresh w (k + length h)) as (i & n & -> & Hn & Hpn);
    [lia|done|].
  f_equal. by eapply Hcons.
Qed.

Lemma data_at_old h fresh h2 x nx :
  shape h2 = shape (h ++ fresh) → h !! x = Some nx →
  data_at h2 x = Some (data nx).
Proof.
  intros E Hx. rewrite (shape_eq_data_at _ _ _ E). unfold data_at.
  by rewrite (lookup_app_l_Some _ _ _ _ Hx).
Qed.

Lemma data_at_new h fresh h2 j n :
  shape h2 = shape (h ++ fresh) → fresh !! j = Some n →
  data_at h2 (j + length h) = Some (data n).
Proof.
  intros E Hj. rewrite (shape_eq_data_at _ _ _ E). unfold data_at.
  by rewrite lookup_fresh, Hj.
Qed.

Lemma deposits_of_new h fresh h2 j n :
  shape h2 = shape (h ++ fresh) → fresh !! j = Some n →
  deposits_of h2 (j + length h)
    = default [] (rule_deposits (_backward n) h2).
Proof.
  intros E Hj. unfold deposits_of.
  rewrite (shape_eq_rule_of _ _ _ E). unfold rule_of.
  by rewrite lookup_fresh, Hj.
Qed.

(** A pass from the last of the objects just allocated. *)
Lemma backward_last h fresh k :
  wf (h ++ fresh) → length fresh = S k →
  ∃ h2, backward (k + length h) (h ++ fresh) = Some (tt, h2) ∧
    shape h2 = shape (h ++ fresh) ∧
    grad_at h2 (k + length h) = Some 1%float.
Proof.
  intros Hwf Hlen.
  destruct (backward_final_log (h ++ fresh) (k + length h) Hwf)
    as (topo & h2 & _ & Hb & Hg & _).
  { rewrite length_app. lia. }
  exists h2. split; [done|]. split; [|done]. by eapply backward_shape.
Qed.

End Fresh.

(** ** The builders followed by a pass *)

Ltac explicit_build :=
  cbv [add_d d_add mul_d d_mul div div_d d_div neg sub sub_d d_sub bind
       constant make_shared];
  repeat first [ erewrite add_run | erewrite mul_run | erewrite pow_run
               | erewrite exp_run | erewrite tanh_run ];
  repeat first [ eassumption
               | apply list_lookup_middle; reflexivity
               | apply lookup_app_l_Some ];
  rewrite ?length_app, <- ?app_assoc; simpl; rewrite ?Nat.add_1_r;
  reflexivity.

Ltac pass_setup c h k Hwf :=
  let Hop := fresh "Hop" in
  let Hwf1 := fresh "Hwf1" in
  let h2 := fresh "h2" in
  let Hb := fresh "Hb" in
  let E := fresh "E" in
  let Hg := fresh "Hg" in
  eassert (build c h = Some (k + length h, h ++ _)) as Hop
    by (simpl; explicit_build);
  pose proof (proj2 (proj2 (grows_build c h _ _ Hop)) Hwf) as Hwf1;
  match type of Hop with
  | _ = Some (_, _ ++ ?fresh) =>
      destruct (backward_last h fresh k Hwf1 eq_refl) as (h2 & Hb & E & Hg)
  end;
  exists (k + length h); eexists; exists h2;
  split; [exact Hop|]; split; [exact Hb|];
  cbn [Nat.add] in Hg.

Ltac elem_cases H :=
  simpl in H;
  repeat (apply elem_of_cons in H as [H|H];
          [subst; try lia; try congruence; try done|]);
  try (by apply elem_of_nil in H).

Ltac consumers_now :=
  let Hn := fresh "Hn" in
  let Hin := fresh "Hin" in
  intros [|[|[|[|i]]]] n Hn Hin; simpl in Hn; simplify_eq; elem_cases Hin.

Ltac feeders_now :=
  let Hn := fresh "Hn" in
  let Hin := fresh "Hin" in
  intros [|[|[|[|i]]]] n b Hn Hin ? ?; simpl in Hn; simplify_eq;
  elem_cases Hin.

Ltac reach_now k :=
  first [ apply rtc_refl
        | apply rtc_once; unfold parents; rewrite (lookup_fresh _ _ k); simpl;
          rewrite !elem_of_cons; auto ].

Ltac via_old x j k :=
  match goal with
  | Hwf1 : wf (?h ++ ?fresh),
    Hb : backward _ (?h ++ ?fresh) = Some (tt, ?h2),
    E : shape ?h2 = shape (?h ++ ?fresh) |- _ =>
      etransitivity;
      [ eapply (fresh_via_old h fresh _ h2 x _ j _ Hwf1 Hb);
        [ eassumption | lia | reflexivity | reach_now k | consumers_now
        | feeders_now ]
      | erewrite (deposits_of_new h fresh h2 j _ E) by reflexivity; simpl ]
  end.

Ltac via_new i j k :=
  match goal with
  | Hwf1 : wf (?h ++ ?fresh),
    Hb : backward _ (?h ++ ?fresh) = Some (tt, ?h2),
    E : shape ?h2 = shape (?h ++ ?fresh) |- _ =>
      etransitivity;
      [ eapply (fresh_via_new h fresh _ h2 i _ j _ Hwf1 Hb);
        [ reflexivity | lia | reflexivity | reach_now k | consumers_now ]
      | erewrite (deposits_of_new h fresh h2 j _ E) by reflexivity; simpl ]
  end.

Ltac know_data :=
  match goal with
  | E : shape ?h2 = shape (?h ++ ?fresh) |- _ =>
      repeat match goal with
      | Hx : h !! ?x = Some ?nx |- _ =>
          lazymatch goal with
          | _ : data_at h2 x = Some _ |- _ => fail
          | _ => pose proof (data_at_old h fresh h2 x nx E Hx)
          end
      end;
      try (let D := fresh "D" in
           pose proof (data_at_new h fresh h2 0 _ E eq_refl) as D;
           cbn [Nat.add data] in D);
      try (let D := fresh "D" in
           pose proof (data_at_new h fresh h2 1 _ E eq_refl) as D;
           cbn [Nat.add data] in D);
      try (let D := fresh "D" in
           pose proof (data_at_new h fresh h2 2 _ E eq_refl) as D;
           cbn [Nat.add data] in D)
  end.

Ltac deposit_now :=
  repeat match goal with
  | Hd : data_at ?h ?p = Some _ |- context [data_at ?h ?p] => rewrite Hd
  | Hd : grad_at ?h ?p = Some _ |- context [grad_at ?h ?p] => rewrite Hd
  end;
  simpl; f_equal; unfold credit; simpl;
  repeat (case_decide; try lia; try congruence);
  try reflexivity.

Section Rules.
Context {libm : Libm}.
Implicit Types (h : Heap) (x y : ptr) (nx ny : Value) (s k : float).

Lemma add_backward h x y nx ny :
  wf h → h !! x = Some nx → h !! y = Some ny →
  ∃ out h1 h2, add x y h = Some (out, h1) ∧
    backward out h1 = Some (tt, h2) ∧
    grad_at h2 out = Some 1%float ∧
    (x ≠ y → ¬ reach h y x → grad_at h2 x = Some (grad nx + 1)%float) ∧
    (x ≠ y → ¬ reach h x y → grad_at h2 y = Some (grad ny + 1)%float) ∧
    (x = y → grad_at h2 x = Some (grad nx + 1 + 1)%float).
Proof.
  intros Hwf Hx Hy.
  pose proof (lookup_lt_Some _ _ _ Hx) as Hxlt.
  pose proof (lookup_lt_Some _ _ _ Hy) as Hylt.
  pass_setup (Add x y) h 0 Hwf.
  split; [done|]. split; [|split].
  - intros Hne Hyx. via_old x 0 0. deposit_now.
  - intros Hne Hxy. via_old y 0 0. deposit_now.
  - intros ->. via_old y 0 0. deposit_now.
Qed.

Lemma mul_backward h x y nx ny :
  wf h → h !! x = Some nx → h !! y = Some ny →
  ∃ out h1 h2, mul x y h = Some (out, h1) ∧
    backward out h1 = Some (tt, h2) ∧
    grad_at h2 out = Some 1%float ∧
    (x ≠ y → ¬ reach h y x →
       grad_at h2 x = Some (grad nx + data ny * 1)%float) ∧
    (x ≠ y → ¬ reach h x y →
       grad_at h2 y = Some (grad ny + data nx * 1)%float) ∧
    (x = y → grad_at h2 x = Some (grad nx + data nx * 1 + data nx * 1)%float).
Proof.
  intros Hwf Hx Hy.
  pose proof (lookup_lt_Some _ _ _ Hx) as Hxlt.
  pose proof (lookup_lt_Some _ _ _ Hy) as Hylt.
  pass_setup (Mul x y) h 0 Hwf. know_data.
  split; [done|]. split; [|split].
  - intros Hne Hyx. via_old x 0 0. deposit_now.
  - intros Hne Hxy. via_old y 0 0. deposit_now.
  - intros ->. assert (nx = ny) as -> by congruence.
    via_old y 0 0. deposit_now.
Qed.

Lemma pow_backward h x nx k :
  wf h → h !! x = Some nx →
  ∃ out h1 h2, pow x k h = Some (out, h1) ∧
    backward out h1 = Some (tt, h2) ∧
    grad_at h2 out = Some 1%float ∧
    grad_at h2 x = Some (grad nx + k * c_pow (data nx) (k - 1) * 1)%float.
Proof.
  intros Hwf Hx. pose proof (lookup_lt_Some _ _ _ Hx) as Hxlt.
  pass_setup (Pow x k) h 0 Hwf. know_data.
  split; [done|]. via_old x 0 0. deposit_now.
Qed.

Lemma exp_backward h x nx :
  wf h → h !! x = Some nx →
  ∃ out h1 h2, exp x h = Some (out, h1) ∧
    backward out h1 = Some (tt, h2) ∧
    grad_at h2 out = Some 1%float ∧
    grad_at h2 x = Some (grad nx + c_exp (data nx) * 1)%float.
Proof.
  intros Hwf Hx. pose proof (lookup_lt_Some _ _ _ Hx) as Hxlt.
  pass_setup (Exp x) h 0 Hwf. know_data.
  split; [done|]. via_old x 0 0. deposit_now.
Qed.

Lemma tanh_backward h x nx :
  wf h → h !! x = Some nx →
  ∃ out h1 h2, tanh x h = Some (out, h1) ∧
    backward out h1 = Some (tt, h2) ∧
    grad_at h2 out = Some 1%float ∧
    grad_at h2 x
      = Some (grad nx
              + (1 - c_tanh (data nx) * c_tanh (data nx)) * 1)%float.
Proof.
  intros Hwf Hx. pose proof (lookup_lt_Some _ _ _ Hx) as Hxlt.
  pass_setup (Tanh x) h 0 Hwf. know_data.
  split; [done|]. via_old x 0 0. deposit_now.
Qed.

Lemma sub_backward h x y nx ny :
  wf h → h !! x = Some nx → h !! y = Some ny → x ≠ y →
  ∃ out h1 h2, sub x y h = Some (out, h1) ∧
    backward out h1 = Some (tt, h2) ∧
    grad_at h2 out = Some 1%float ∧
    (¬ reach h y x → grad_at h2 x = Some (grad nx + 1)%float) ∧
    (¬ reach h x y → grad_at h2 y = Some (grad ny + -1)%float).
Proof.
  intros Hwf Hx Hy Hne.
  pose proof (lookup_lt_Some _ _ _ Hx) as Hxlt.
  pose proof (lookup_lt_Some _ _ _ Hy) as Hylt.
  pass_setup (Sub x y) h 2 Hwf. know_data.
  split; [done|]. split.
  - intros Hyx. via_old x 2 2. deposit_now.
  - intros Hxy.
    assert (grad_at h2 (S (length h)) = Some 1%float) as Hgm.
    { via_new 1 2 2. deposit_now. }
    via_old y 1 2. deposit_now.
Qed.

Lemma div_backward h x y nx ny :
  wf h → h !! x = Some nx → h !! y = Some ny → x ≠ y →
  ∃ out h1 h2, div x y h = Some (out, h1) ∧
    backward out h1 = Some (tt, h2) ∧
    grad_at h2 out = Some 1%float ∧
    (¬ reach h y x →
       grad_at h2 x = Some (grad nx + c_pow (data ny) (-1) * 1)%float) ∧
    (¬ reach h x y →
       grad_at h2 y
         = Some (grad ny
                 + -1 * c_pow (data ny) (-2) * (0 + data nx * 1))%float).
Proof.
  intros Hwf Hx Hy Hne.
  pose proof (lookup_lt_Some _ _ _ Hx) as Hxlt.
  pose proof (lookup_lt_Some _ _ _ Hy) as Hylt.
  pass_setup (Div x y) h 1 Hwf. know_data.
  split; [done|]. split.
  - intros Hyx. via_old x 1 1. deposit_now.
  - intros Hxy.
    assert (grad_at h2 (length h) = Some (0 + data nx * 1)%float) as Hgr.
    { via_new 0 1 1. deposit_now. }
    via_old y 0 1. deposit_now.
Qed.

Lemma add_d_backward h x nx s :
  wf h → h !! x = Some nx →
  ∃ out h1 h2, add_d x s h = Some (out, h1) ∧
    backward out h1 = Some (tt, h2) ∧
    grad_at h2 out = Some 1%float ∧
    grad_at h2 x = Some (grad nx + 1)%float.
Proof.
  intros Hwf Hx. pose proof (lookup_lt_Some _ _ _ Hx) as Hxlt.
  pass_setup (AddD x s) h 1 Hwf. know_data.
  split; [done|].
  via_old x 1 1. deposit_now.
Qed.

Lemma d_add_backward h x nx s :
  wf h → h !! x = Some nx →
  ∃ out h1 h2, d_add s x h = Some (out, h1) ∧
    backward out h1 = Some (tt, h2) ∧
    grad_at h2 out = Some 1%float ∧
    grad_at h2 x = Some (grad nx + 1)%float.
Proof.
  intros Hwf Hx. pose proof (lookup_lt_Some _ _ _ Hx) as Hxlt.
  pass_setup (DAdd s x) h 1 Hwf. know_data.
  split; [done|].
  via_old x 1 1. deposit_now.
Qed.

Lemma mul_d_backward h x nx s :
  wf h → h !! x = Some nx →
  ∃ out h1 h2, mul_d x s h = Some (out, h1) ∧
    backward out h1 = Some (tt, h2) ∧
    grad_at h2 out = Some 1%float ∧
    grad_at h2 x = Some (grad nx + s * 1)%float.
Proof.
  intros Hwf Hx. pose proof (lookup_lt_Some _ _ _ Hx) as Hxlt.
  pass_setup (MulD x s) h 1 Hwf. know_data.
  split; [done|].
  via_old x 1 1. deposit_now.
Qed.

Lemma d_mul_backward h x nx s :
  wf h → h !! x = Some nx →
  ∃ out h1 h2, d_mul s x h = Some (out, h1) ∧
    backward out h1 = Some (tt, h2) ∧
    grad_at h2 out = Some 1%float ∧
    grad_at h2 x = Some (grad nx + s * 1)%float.
Proof.
  intros Hwf Hx. pose proof (lookup_lt_Some _ _ _ Hx) as Hxlt.
  pass_setup (DMul s x) h 1 Hwf. know_data.
  split; [done|].
  via_old x 1 1. deposit_now.
Qed.

Lemma div_d_backward h x nx s :
  wf h → h !! x = Some nx →
  ∃ out h1 h2, div_d x s h = Some (out, h1) ∧
    backward out h1 = Some (tt, h2) ∧
    grad_at h2 out = Some 1%float ∧
    grad_at h2 x = Some (grad nx + 1 / s * 1)%float.
Proof.
  intros Hwf Hx. pose proof (lookup_lt_Some _ _ _ Hx) as Hxlt.
  pass_setup (DivD x s) h 1 Hwf. know_data.
  split; [done|].
  via_old x 1 1. deposit_now.
Qed.

Lemma d_div_backward h x nx s :
  wf h → h !! x = Some nx →
  ∃ out h1 h2, d_div s x h = Some (out, h1) ∧
    backward out h1 = Some (tt, h2) ∧
    grad_at h2 out = Some 1%float ∧
    grad_at h2 x
      = Some (grad nx + -1 * c_pow (data nx) (-2) * (0 + s * 1))%float.
Proof.
  intros Hwf Hx. pose proof (lookup_lt_Some _ _ _ Hx) as Hxlt.
  pass_setup (DDiv s x) h 2 Hwf. know_data.
  split; [done|].
  assert (grad_at h2 (S (length h)) = Some (0 + s * 1)%float) as Hgr.
  { via_new 1 2 2. deposit_now. }
  via_old x 1 2. deposit_now.
Qed.

Lemma neg_backward h x nx :
  wf h → h !! x = Some nx →
  ∃ out h1 h2, neg x h = Some (out, h1) ∧
    backward out h1 = Some (tt, h2) ∧
    grad_at h2 out = Some 1%float ∧
    grad_at h2 x = Some (grad nx + -1)%float.
Proof.
  intros Hwf Hx. pose proof (lookup_lt_Some _ _ _ Hx) as Hxlt.
  pass_setup (Neg x) h 1 Hwf. know_data.
  split; [done|].
  via_old x 1 1. deposit_now.
Qed.

Lemma sub_d_backward h x nx s :
  wf h → h !! x = Some nx →
  ∃ out h1 h2, sub_d x s h = Some (out, h1) ∧
    backward out h1 = Some (tt, h2) ∧
    grad_at h2 out = Some 1%float ∧
    grad_at h2 x = Some (grad nx + 1)%float.
Proof.
  intros Hwf Hx. pose proof (lookup_lt_Some _ _ _ Hx) as Hxlt.
  pass_setup (SubD x s) h 3 Hwf. know_data.
  split; [done|].
  via_old x 3 3. deposit_now.
Qed.

Lemma d_sub_backward h x nx s :
  wf h → h !! x = Some nx →
  ∃ out h1 h2, d_sub s x h = Some (out, h1) ∧
    backward out h1 = Some (tt, h2) ∧
    grad_at h2 out = Some 1%float ∧
    grad_at h2 x = Some (grad nx + -1)%float.
Proof.
  intros Hwf Hx. pose proof (lookup_lt_Some _ _ _ Hx) as Hxlt.
  pass_setup (DSub s x) h 3 Hwf. know_data.
  split; [done|].
  assert (grad_at h2 (S (S (length h))) = Some 1%float) as Hgm.
  { via_new 2 3 3. deposit_now. }
  via_old x 2 3. deposit_now.
Qed.

End Rules.

(** X5.  The sum rule and the product rule.  Let [x] and [y] be distinct
    objects of a well-formed graph, with any gradients in them, such that
    [x] is not reachable from [y].  After a pass from [x + y] or [y + x]
    the gradient of [x] is its old gradient plus [1]; after a pass from
    [x * y] or [y * x] it is its old gradient plus [y.data * 1]. *)
Theorem sum_and_product_rule {libm : Libm} (h : Heap) (x y : ptr)
    (nx ny : Value) :
  wf h → h !! x = Some nx → h !! y = Some ny →
  x ≠ y → ¬ reach h y x →
  leaves_gradient (add x y) h x (grad nx + 1) ∧
  leaves_gradient (add y x) h x (grad nx + 1) ∧
  leaves_gradient (mul x y) h x (grad nx + data ny * 1) ∧
  leaves_gradient (mul y x) h x (grad nx + data ny * 1).
Proof.
  intros Hwf Hx Hy Hne Hyx.
  destruct (add_backward h x y nx ny Hwf Hx Hy)
    as (o1 & a1 & a2 & Ha & Hab & Hag & Hax & _).
  destruct (add_backward h y x ny nx Hwf Hy Hx)
    as (o2 & b1 & b2 & Hd & Hdb & Hdg & _ & Hdx & _).
  destruct (mul_backward h x y nx ny Hwf Hx Hy)
    as (o3 & m1 & m2 & Hm & Hmb & Hmg & Hmx & _).
  destruct (mul_backward h y x ny nx Hwf Hy Hx)
    as (o4 & s1 & s2 & Hs & Hsb & Hsg & _ & Hsx & _).
  unfold leaves_gradient.
  repeat split; eexists _, _, _; eauto 10.
Qed.

Lemma sum_and_product_rule_witness :
  leaves_gradient (libm := sample_libm) (add 0 1) diamond 0 (0 + 1) ∧
  leaves_gradient (libm := sample_libm) (add 1 0) diamond 0 (0 + 1) ∧
  leaves_gradient (libm := sample_libm) (mul 0 1) diamond 0 (0 + 3 * 1) ∧
  leaves_gradient (libm := sample_libm) (mul 1 0) diamond 0 (0 + 3 * 1).
Proof.
  apply (sum_and_product_rule (libm := sample_libm) diamond 0 1 _ _
           wf_diamond eq_refl eq_refl).
  - lia.
  - intros Hr. apply rtc_inv in Hr as [Heq|(p & Hp & _)]; [lia|].
    vm_compute in Hp. by apply elem_of_nil in Hp.
Defined.

(** X6.  The rules for one operand, end to end.  For an object [x] of a
    well-formed graph with any gradient in it, a pass from the result adds
    to the gradient of [x]: [k * pow(x.data, k - 1) * 1] for [pow(x, k)];
    [exp(x.data) * 1] for [exp(x)]; [(1 - t * t) * 1] with
    [t = tanh(x.data)] for [tanh(x)]; [1] and then [1] again for [x + x];
    [x.data * 1] and then [x.data * 1] again for [x * x]. *)
Theorem unary_passes {libm : Libm} (h : Heap) (x : ptr) (nx : Value)
    (k : float) :
  wf h → h !! x = Some nx →
  leaves_gradient (pow x k) h x
    (grad nx + k * c_pow (data nx) (k - 1) * 1) ∧
  leaves_gradient (exp x) h x (grad nx + c_exp (data nx) * 1) ∧
  leaves_gradient (tanh x) h x
    (grad nx + (1 - c_tanh (data nx) * c_tanh (data nx)) * 1) ∧
  leaves_gradient (add x x) h x (grad nx + 1 + 1) ∧
  leaves_gradient (mul x x) h x (grad nx + data nx * 1 + data nx * 1).
Proof.
  intros Hwf Hx.
  split; [by apply pow_backward|]. split; [by apply exp_backward|].
  split; [by apply tanh_backward|].
  destruct (add_backward h x x nx nx Hwf Hx Hx)
    as (o3 & b1 & b2 & Hd & Hdb & Hdg & _ & _ & Hdx).
  destruct (mul_backward h x x nx nx Hwf Hx Hx)
    as (o4 & s1 & s2 & Hs & Hsb & Hsg & _ & _ & Hsx).
  unfold leaves_gradient. split; eexists _, _, _; eauto 10.
Qed.

Lemma unary_passes_witness :
  leaves_gradient (libm := sample_libm)
    (pow (libm := sample_libm) 2 2) diamond 2
    (0 + 2 * (1 + (2 - 1) * (9 - 1)) * 1) ∧
  leaves_gradient (libm := sample_libm)
    (exp (libm := sample_libm) 2) diamond 2
    (0 + (1 + 9) * 1) ∧
  leaves_gradient (libm := sample_libm)
    (tanh (libm := sample_libm) 2) diamond 2
    (0 + (1 - 9 * 9) * 1) ∧
  leaves_gradient (libm := sample_libm) (add 2 2) diamond 2 (0 + 1 + 1) ∧
  leaves_gradient (libm := sample_libm) (mul 2 2) diamond 2
    (0 + 9 * 1 + 9 * 1).
Proof.
  exact (unary_passes (libm := sample_libm) diamond 2 _ 2 wf_diamond eq_refl).
Defined.

(** X7.  Subtraction and division of two objects, which the code composes
    from the other builders.  Let [x] and [y] be distinct objects of a
    well-formed graph, with any gradients in them, such that [x] is not
    reachable from [y].  A pass from the result adds to the gradient of
    [x]: [1] for [x - y]; [-1] for [y - x]; [pow(y.data, -1) * 1] for
    [x / y]; and [-1 * pow(x.data, -2) * (0 + y.data * 1)] for [y / x]. *)
Theorem difference_and_quotient_rule {libm : Libm} (h : Heap) (x y : ptr)
    (nx ny : Value) :
  wf h → h !! x = Some nx → h !! y = Some ny →
  x ≠ y → ¬ reach h y x →
  leaves_gradient (sub x y) h x (grad nx + 1) ∧
  leaves_gradient (sub y x) h x (grad nx + -1) ∧
  leaves_gradient (div x y) h x (grad nx + c_pow (data ny) (-1) * 1) ∧
  leaves_gradient (div y x) h x
    (grad nx + -1 * c_pow (data nx) (-2) * (0 + data ny * 1)).
Proof.
  intros Hwf Hx Hy Hne Hyx.
  assert (y ≠ x) as Hne' by congruence.
  destruct (sub_backward h x y nx ny Hwf Hx Hy Hne)
    as (o1 & a1 & a2 & Ha & Hab & Hag & Hax & _).
  destruct (sub_backward h y x ny nx Hwf Hy Hx Hne')
    as (o2 & b1 & b2 & Hd & Hdb & Hdg & _ & Hdx).
  destruct (div_backward h x y nx ny Hwf Hx Hy Hne)
    as (o3 & m1 & m2 & Hm & Hmb & Hmg & Hmx & _).
  destruct (div_backward h y x ny nx Hwf Hy Hx Hne')
    as (o4 & s1 & s2 & Hs & Hsb & Hsg & _ & Hsx).
  unfold leaves_gradient.
  repeat split; eexists _, _, _; eauto 10.
Qed.

Lemma difference_and_quotient_rule_witness :
  leaves_gradient (libm := sample_libm) (sub 0 1) diamond 0 (0 + 1) ∧
  leaves_gradient (libm := sample_libm) (sub 1 0) diamond 0 (0 + -1) ∧
  leaves_gradient (libm := sample_libm)
    (div (libm := sample_libm) 0 1) diamond 0
    (0 + (1 + -1 * (3 - 1)) * 1) ∧
  leaves_gradient (libm := sample_libm)
    (div (libm := sample_libm) 1 0) diamond 0
    (0 + -1 * (1 + -2 * (3 - 1)) * (0 + 3 * 1)).
Proof.
  apply (difference_and_quotient_rule (libm := sample_libm) diamond 0 1 _ _
           wf_diamond eq_refl eq_refl).
  - lia.
  - intros Hr. apply rtc_inv in Hr as [Heq|(p & Hp & _)]; [lia|].
    vm_compute in Hp. by apply elem_of_nil in Hp.
Defined.

(** X8.  Sums and differences with a number, and negation.  For an
    object [x] of a well-formed graph with any gradient in it and any
    number [s], a pass from the result adds to the gradient of [x]: [1]
    for [x + s], [s + x] and [x - s], and [-1] for [s - x] and [-x]. *)
Theorem additive_scalar_passes {libm : Libm} (h : Heap) (x : ptr)
    (nx : Value) (s : float) :
  wf h → h !! x = Some nx →
  leaves_gradient (add_d x s) h x (grad nx + 1) ∧
  leaves_gradient (d_add s x) h x (grad nx + 1) ∧
  leaves_gradient (sub_d x s) h x (grad nx + 1) ∧
  leaves_gradient (d_sub s x) h x (grad nx + -1) ∧
  leaves_gradient (neg x) h x (grad nx + -1).
Proof.
  intros Hwf Hx.
  split; [by apply add_d_backward|]. split; [by apply d_add_backward|].
  split; [by apply sub_d_backward|]. split; [by apply d_sub_backward|].
  by apply neg_backward.
Qed.

Lemma additive_scalar_passes_witness :
  leaves_gradient (libm := sample_libm) (add_d 2 4) diamond 2 (0 + 1) ∧
  leaves_gradient (libm := sample_libm) (d_add 4 2) diamond 2 (0 + 1) ∧
  leaves_gradient (libm := sample_libm) (sub_d 2 4) diamond 2 (0 + 1) ∧
  leaves_gradient (libm := sample_libm) (d_sub 4 2) diamond 2 (0 + -1) ∧
  leaves_gradient (libm := sample_libm) (neg 2) diamond 2 (0 + -1).
Proof.
  exact (additive_scalar_passes (libm := sample_libm) diamond 2 _ 4
           wf_diamond eq_refl).
Defined.

(** X9.  Products and quotients with a number.  For an object [x] of a
    well-formed graph with any gradient in it and any number [s], a pass
    from the result adds to the gradient of [x]: [s * 1] for [x * s] and
    [s * x]; [1 / s * 1] for [x / s], which the code computes as
    [x * (1 / s)]; and [-1 * pow(x.data, -2) * (0 + s * 1)] for [s / x]. *)
Theorem multiplicative_scalar_passes {libm : Libm} (h : Heap) (x : ptr)
    (nx : Value) (s : float) :
  wf h → h !! x = Some nx →
  leaves_gradient (mul_d x s) h x (grad nx + s * 1) ∧
  leaves_gradient (d_mul s x) h x (grad nx + s * 1) ∧
  leaves_gradient (div_d x s) h x (grad nx + 1 / s * 1) ∧
  leaves_gradient (d_div s x) h x
    (grad nx + -1 * c_pow (data nx) (-2) * (0 + s * 1)).
Proof.
  intros Hwf Hx.
  split; [by apply mul_d_backward|]. split; [by apply d_mul_backward|].
  split; [by apply div_d_backward|]. by apply d_div_backward.
Qed.

Lemma multiplicative_scalar_passes_witness :
  leaves_gradient (libm := sample_libm) (mul_d 2 4) diamond 2 (0 + 4 * 1) ∧
  leaves_gradient (libm := sample_libm) (d_mul 4 2) diamond 2 (0 + 4 * 1) ∧
  leaves_gradient (libm := sample_libm) (div_d 2 4) diamond 2
    (0 + 1 / 4 * 1) ∧
  leaves_gradient (libm := sample_libm)
    (d_div (libm := sample_libm) 4 2) diamond 2
    (0 + -1 * (1 + -2 * (9 - 1)) * (0 + 4 * 1)).
Proof.
  exact (multiplicative_scalar_passes (libm := sample_libm) diamond 2 _ 4
           wf_diamond eq_refl).
Defined.

(** ** What a pass does not depend on *)

Lemma topo_order_ext h h' self :
  length h = length h' →
  (∀ v n, h !! v = Some n → ∃ n', h' !! v = Some n' ∧ _prev n' = _prev n) →
  (∀ v n, h' !! v = Some n → ∃ n', h !! v = Some n' ∧ _prev n' = _prev n) →
  topo_order h' self = topo_order h self.
Proof.
  intros Hlen Hh Hh'.
  destruct (topo_order h self) as [t|] eqn:Ht.
  - apply (topo_order_mono h h'); [lia|done..].
  - destruct (topo_order h' self) as [t'|] eqn:Ht'; [|done].
    apply (topo_order_mono h' h) in Ht'; [congruence|lia|done].
Qed.

Section Blind.
Context {libm : Libm}.

Lemma tag_blind_ret {A} (a : A) : tag_blind (ret a).
Proof. by intros h. Qed.

Lemma tag_blind_bind {A B} (m : M A) (k : A → M B) :
  tag_blind m → (∀ a, tag_blind (k a)) → tag_blind (bind m k).
Proof.
  intros Hm Hk h. unfold bind. rewrite Hm.
  destruct (m h) as [[a h1]|]; simpl; [apply Hk|done].
Qed.

Lemma tag_blind_get_data p : tag_blind (get_data p).
Proof.
  intros h. unfold get_data, bind, deref, ret. rewrite list_lookup_fmap.
  by destruct (h !! p).
Qed.

Lemma tag_blind_get_grad p : tag_blind (get_grad p).
Proof.
  intros h. unfold get_grad, bind, deref, ret. rewrite list_lookup_fmap.
  by destruct (h !! p).
Qed.

Lemma tag_blind_set_grad p g : tag_blind (set_grad p g).
Proof.
  intros h. unfold set_grad. rewrite list_lookup_fmap.
  destruct (h !! p) as [n|]; simpl; [|done].
  by rewrite list_fmap_insert.
Qed.

Lemma tag_blind_add_grad p g : tag_blind (add_grad p g).
Proof.
  apply tag_blind_bind; [apply tag_blind_get_grad|].
  intros a. apply tag_blind_set_grad.
Qed.

Lemma tag_blind_run_rule r : tag_blind (run_rule r).
Proof.
  destruct r; simpl;
    repeat first [ apply tag_blind_ret
                 | apply tag_blind_get_data
                 | apply tag_blind_get_grad
                 | apply tag_blind_add_grad
                 | apply tag_blind_bind; [|intros ?] ].
Qed.

Lemma tag_blind_replay order : tag_blind (replay order).
Proof.
  induction order as [|it rest IH]; [apply tag_blind_ret|].
  intros h. simpl. unfold bind at 1 3, deref. rewrite list_lookup_fmap.
  destruct (h !! it) as [n|]; simpl; [|done].
  apply (tag_blind_bind (run_rule (_backward n)) (λ _, replay rest));
    [apply tag_blind_run_rule|done].
Qed.

Lemma tag_blind_backward self : tag_blind (backward self).
Proof.
  intros h. unfold backward.
  rewrite (topo_order_ext h (strip_tags <$> h) self).
  - destruct (topo_order h self) as [topo|]; [|done].
    apply (tag_blind_bind (set_grad self 1) (λ _, replay (reverse topo)));
      [apply tag_blind_set_grad|intros _; apply tag_blind_replay].
  - by rewrite length_fmap.
  - intros v n Hn. exists (strip_tags n). by rewrite list_lookup_fmap, Hn.
  - intros v n. rewrite list_lookup_fmap.
    destruct (h !! v) as [n'|]; [|done]. intros [= <-]. by exists n'.
Qed.

Lemma local_ret {A} (a : A) : local (ret a).
Proof. intros h fresh b h' [= <- <-]. done. Qed.

Lemma local_bind {A B} (m : M A) (k : A → M B) :
  local m → (∀ a, local (k a)) → local (bind m k).
Proof.
  intros Hm Hk h fresh b h'. unfold bind.
  destruct (m h) as [[a h1]|] eqn:Hmh; [|done].
  rewrite (Hm _ fresh _ _ Hmh). apply Hk.
Qed.

Lemma local_deref p : local (deref p).
Proof.
  intros h fresh n h'. unfold deref.
  destruct (h !! p) as [n'|] eqn:Hn; [|done]. intros [= <- <-].
  by rewrite (lookup_app_l_Some _ _ _ _ Hn).
Qed.

Lemma local_set_grad p g : local (set_grad p g).
Proof.
  intros h fresh [] h'. unfold set_grad.
  destruct (h !! p) as [n|] eqn:Hn; [|done]. intros [= <-].
  rewrite (lookup_app_l_Some _ _ _ _ Hn).
  by rewrite insert_app_l by by eapply lookup_lt_Some.
Qed.

Lemma local_get_data p : local (get_data p).
Proof.
  apply local_bind; [apply local_deref|]. intros n. apply local_ret.
Qed.

Lemma local_get_grad p : local (get_grad p).
Proof.
  apply local_bind; [apply local_deref|]. intros n. apply local_ret.
Qed.

Lemma local_add_grad p g : local (add_grad p g).
Proof.
  apply local_bind; [apply local_get_grad|]. intros a. apply local_set_grad.
Qed.

Lemma local_run_rule r : local (run_rule r).
Proof.
  destruct r; simpl;
    repeat first [ apply local_ret
                 | apply local_get_data
                 | apply local_get_grad
                 | apply local_add_grad
                 | apply local_bind; [|intros ?] ].
Qed.

Lemma local_replay order : local (replay order).
Proof.
  induction order as [|it rest IH]; [apply local_ret|]. simpl.
  apply local_bind; [apply local_deref|]. intros n.
  apply local_bind; [apply local_run_rule|]. by intros _.
Qed.

Lemma local_backward self : local (backward self).
Proof.
  intros h fresh [] h'. unfold backward.
  destruct (topo_order h self) as [topo|] eqn:Ht; [|done].
  rewrite (topo_order_mono h (h ++ fresh) self topo); [| |by eauto using lookup_app_l_Some|done].
  - apply (local_bind (set_grad self 1) (λ _, replay (reverse topo)));
      [apply local_set_grad|intros _; apply local_replay].
  - rewrite length_app. lia.
Qed.

End Blind.

(** X10.  Tags and labels are for display only.  The pass made by
    [backward] never looks at the operation tag or the label of an object:
    on the graph with all tags and labels erased it fails where it fails
    on the graph itself, and returns the same graph, tags erased, where it
    returns. *)
Theorem backward_ignores_tags {libm : Libm} (self : ptr) (h : Heap) :
  tag_blind (backward self) ∧
  topo_order (strip_tags <$> h) self = topo_order h self.
Proof.
  split; [apply tag_blind_backward|].
  apply topo_order_ext.
  - by rewrite length_fmap.
  - intros v n Hn. exists (strip_tags n). by rewrite list_lookup_fmap, Hn.
  - intros v n. rewrite list_lookup_fmap.
    destruct (h !! v) as [n'|]; [|done]. intros [= <-]. by exists n'.
Qed.

(** X11.  A pass is local.  Objects allocated after the ones a pass from
    [self] walks do not change it: if [self->backward()] returns on a
    graph, then on that graph followed by any further objects it returns
    too, makes the same changes, and leaves the further objects alone. *)
Theorem backward_local {libm : Libm} (self : ptr) (h fresh h' : Heap) :
  backward self h = Some (tt, h') →
  backward self (h ++ fresh) = Some (tt, h' ++ fresh) ∧
  topo_order (h ++ fresh) self = topo_order h self.
Proof.
  intros Hb. split; [by apply local_backward|].
  apply backward_Some in Hb as (topo & h1 & Ht & _).
  rewrite Ht. apply (topo_order_mono h); [|by eauto using lookup_app_l_Some|done].
  rewrite length_app. lia.
Qed.

Lemma backward_local_witness :
  backward (libm := sample_libm) 4 (diamond ++ zero_leaf)
    = Some (tt, diamond_after ++ zero_leaf) ∧
  topo_order (diamond ++ zero_leaf) 4 = topo_order diamond 4.
Proof.
  apply (backward_local (libm := sample_libm) 4 diamond zero_leaf
           diamond_after).
  reflexivity.
Defined.

(** X12.  The gradient the root held before a pass is discarded: with any
    other number in its place the pass does the same. *)
Theorem seed_overwritten {libm : Libm} (self : ptr) (h : Heap) (n : Value)
    (g : float) :
  h !! self = Some n →
  backward self (<[self := with_grad n g]> h) = backward self h.
Proof.
  intros Hn. pose proof (lookup_lt_Some _ _ _ Hn) as Hlt.
  unfold backward.
  rewrite (topo_order_ext h (<[self := with_grad n g]> h) self).
  - destruct (topo_order h self) as [topo|]; [|done].
    unfold bind, set_grad.
    rewrite list_lookup_insert_eq, Hn by done.
    by rewrite list_insert_insert_eq.
  - by rewrite length_insert.
  - intros v m Hm. destruct (decide (v = self)) as [->|Hne].
    + rewrite list_lookup_insert_eq by done. exists (with_grad n g).
      split; [done|]. simpl. congruence.
    + rewrite list_lookup_insert_ne by done. eauto.
  - intros v m. destruct (decide (v = self)) as [->|Hne].
    + rewrite list_lookup_insert_eq by done. intros [= <-]. eauto.
    + rewrite list_lookup_insert_ne by done. eauto.
Qed.

Lemma seed_overwritten_witness :
  backward (libm := sample_libm) 4
    (<[4 := with_grad (mkValue 54 0 (RMul 2 3 4) [2; 3] "*" "") 7]> diamond)
    = backward (libm := sample_libm) 4 diamond.
Proof.
  apply (seed_overwritten (libm := sample_libm) 4 diamond). reflexivity.
Defined.
